(** * cppsv: the runtime CSV view and the numeric converter

    A shallow embedding of [include/convert.h] (chrdigit, chrlower,
    to_integer, check_fp_constants, to_floating_point),
    [include/cppsv_common.h] (cppsv_header) and [include/cppsv_rt.h]
    (runtime_cppsv_view), followed by the properties proved about them.

    Conventions of the embedding.
    - A character is an [ascii]; [code c] is its integer value.  The sources
      cast to [unsigned int] before comparing against ['0'], ['z'], ['A'],
      ['Z']: every character outside 0..127 lands above ['z'] either way.
    - An iterator range [first, last) is the list of the characters it
      spans: [++first] drops the head, [last = prev] drops the last
      element, [first == last] is the empty list.
    - A [std::basic_string_view] is the character sequence it denotes
      (its [operator==] compares contents).
    - [std::optional<T>] is [option T]; [std::nullopt] is [None].
    - [size_t] counters and offsets are [nat]: none of them exceeds the
      length of the text by more than one.
    - [Fp] is [double], a binary64 [float] with every operation rounded to
      nearest; the [Integer] of [to_integer] is a parameter of the
      embedding, and [int] where [to_floating_point] reads its exponent. *)

From Stdlib Require Import Ascii String List ZArith Lia Bool Arith.
From Stdlib Require Import Floats.PrimFloat Numbers.Cyclic.Int63.Uint63.
From Equations Require Import Equations.
Import ListNotations.

Set Implicit Arguments.

(** ** Characters *)

Definition code (c : ascii) : Z := Z.of_N (N_of_ascii c).

Definition chr_quote : ascii := "034"%char.
Definition chr_nl    : ascii := "010"%char.
Definition chr_comma : ascii := ","%char.
Definition chr_space : ascii := " "%char.
Definition chr_nul   : ascii := "000"%char.
Definition chr_minus : ascii := "-"%char.
Definition chr_zero  : ascii := "0"%char.
Definition chr_dot   : ascii := "."%char.

(** The characters of a string literal, for writing inputs down. *)
Definition chars (s : string) : list ascii := list_ascii_of_string s.

(** ** convert.h *)

Module Convert.

Local Open Scope Z_scope.

(** [digit_lut_base16], indexed by [chr - '0'] for ['0' <= chr <= 'z']. *)
Definition digit_lut_base16 : list Z :=
  [  0;  1;  2;  3;  4;  5;  6;  7;  8;  9; -1; -1; -1; -1; -1; -1;
    -1; 10; 11; 12; 13; 14; 15; 16; 17; 18; 19; 20; 21; 22; 23; 24;
    25; 26; 27; 28; 29; 30; 31; 32; 33; 34; 35; -1; -1; -1; -1; -1;
    -1; 10; 11; 12; 13; 14; 15; 16; 17; 18; 19; 20; 21; 22; 23; 24;
    25; 26; 27; 28; 29; 30; 31; 32; 33; 34; 35 ].

(** [chrdigit(chr, base)]: the value of a digit character, or -1. *)
Definition chrdigit (chr : ascii) (base : Z) : Z :=
  if (code chr <? code "0") || (code chr >? code "z") then -1
  else
    let digit := nth (Z.to_nat (code chr - code "0")) digit_lut_base16 (-1) in
    if digit <? base then digit else -1.

(** [chrlower(chr)]: the lowercase counterpart of an ASCII letter, or -1. *)
Definition chrlower (chr : ascii) : Z :=
  if (code chr >=? code "A") && (code chr <=? code "Z") then code chr + 32
  else if (code chr >=? code "a") && (code chr <=? code "z") then code chr
  else -1.

(** [*prev == ' ' || *prev == '\0'] for [prev = last - 1] on a non-empty
    range. *)
Definition back_is_blank (s : list ascii) : bool :=
  let prev := List.last s chr_nul in
  Ascii.eqb prev chr_space || Ascii.eqb prev chr_nul.

(** The [do { ... } while (true)] loop that opens both [to_integer] and
    [to_floating_point] (the same text in both).  [None] is the
    [return std::nullopt] taken when [first == last]; [Some t] is the range
    left at the [break]. *)
Equations? trim (s : list ascii) : option (list ascii) by wf (length s) lt :=
  trim [] := None;
  trim (c :: s') :=
    if Ascii.eqb c chr_space then trim s'
    else if back_is_blank (c :: s') then trim (removelast (c :: s'))
    else Some (c :: s').
Proof.
  assert (Hlt : forall l : list ascii,
             l <> [] -> (length (removelast l) < length l)%nat).
  { intros l Hl. rewrite (app_removelast_last chr_nul Hl) at 2.
    rewrite length_app. simpl. lia. }
  apply (Hlt (c :: s')). discriminate.
Qed.

(** A loop body or prologue either leaves the function with a result or
    hands a state on to the code that follows. *)
Inductive flow (R A : Type) : Type :=
| Return (r : R)
| Next (a : A).
Arguments Return {R A} r.
Arguments Next {R A} a.

Section ToInteger.

(** The [Integer] template parameter: [wrap z] is the value an object of
    type [Integer] holds after the arithmetic result [z] is stored in it. *)
Variable wrap : Z -> Z.

(** [bool sign = *first == '-'; if (sign) ++first;
     if (first == last) return std::nullopt;], on the range [trim] left
    (never empty). *)
Definition take_sign (R : Type) (t : list ascii)
  : flow (option R) (bool * list ascii) :=
  let sign := Ascii.eqb (hd chr_nul t) chr_minus in
  let t := if sign then tl t else t in
  match t with
  | [] => Return None
  | _ :: _ => Next (sign, t)
  end.

(** The [0x], [0o], [0b] prefix check: the working base and the range the
    digit loop starts from. *)
Definition prefix (radix : Z) (t : list ascii)
  : flow (option Z) (Z * list ascii) :=
  match t with
  | [] => Next (radix, t)
  | c :: it_chr =>
      if Ascii.eqb c chr_zero then
        match it_chr with
        | [] => Return (Some 0)
        | chr :: first =>
            let l := chrlower chr in
            if l =? code "x" then Next (16, first)
            else if l =? code "o" then Next (8, first)
            else if l =? code "b" then Next (2, first)
            else if chrdigit chr 10 <? 0 then Return None
            else Next (radix, first)
        end
      else Next (radix, t)
  end.

(** [while (first != last) { ... result = result * base + digit; }] *)
Fixpoint accumulate (base : Z) (s : list ascii) (result : Z) : option Z :=
  match s with
  | [] => Some result
  | chr :: s' =>
      let digit := chrdigit chr base in
      if digit <? 0 then None
      else accumulate base s' (wrap (result * base + digit))
  end.

(** [to_integer(first, last, Integer{}, radix)] *)
Definition to_integer (s : list ascii) (radix : Z) : option Z :=
  match trim s with
  | None => None
  | Some t =>
      match take_sign Z t with
      | Return r => r
      | Next (sign, t) =>
          match prefix radix t with
          | Return r => r
          | Next (base, digits) =>
              match accumulate base digits 0 with
              | None => None
              | Some result =>
                  Some (if sign then wrap (- result) else result)
              end
          end
      end
  end.

End ToInteger.

(** [int]: 32 bits, two's complement.  Signed overflow is undefined in
    C++; the embedding gives it the wrap-around of the usual targets, and
    the numbers in the examples below stay well inside the range. *)
Definition wrap_int (z : Z) : Z := (z + 2 ^ 31) mod 2 ^ 32 - 2 ^ 31.

(** [fp_constants<CharT>] *)
Definition fp_infinity : list ascii := chars "infinity".
Definition fp_inf : list ascii := chars "inf".
Definition fp_nan : list ascii := chars "nan".

(** [std::equal(first, last, begin(lit), end(lit), pred)] with
    [pred(a, b) = (chrlower(a) == b)]. *)
Fixpoint equal_lower (s lit : list ascii) : bool :=
  match s, lit with
  | [], [] => true
  | a :: s', b :: lit' => (chrlower a =? code b) && equal_lower s' lit'
  | _, _ => false
  end.

(** [check_fp_constants(first, last, default_result)] *)
Definition check_fp_constants (s : list ascii) (default_result : float)
  : float :=
  if equal_lower s fp_infinity || equal_lower s fp_inf then infinity
  else if equal_lower s fp_nan then nan
  else default_result.

(** [static_cast<Fp>(digit)] for a digit value. *)
Definition fp_of_digit (digit : Z) : float := of_uint63 (Uint63.of_Z digit).

(** [It first_exp = first; while (++first_exp != last)
     if (chrlower of the character at first_exp == 'e') break;] : the position of [first_exp]
    as the split of the range into [first, first_exp) and
    [first_exp, last). *)
Fixpoint scan_exp (r : list ascii) : list ascii * list ascii :=
  match r with
  | [] => ([], [])
  | d :: r' =>
      if chrlower d =? code "e" then ([], d :: r')
      else let (a, b) := scan_exp r' in (d :: a, b)
  end.

Definition find_exp (t : list ascii) : list ascii * list ascii :=
  match t with
  | [] => ([], [])
  | c :: r => let (a, b) := scan_exp r in (c :: a, b)
  end.

(** The whole part: from [first] towards [last_decimal], stopping after a
    ['.'].  Returns the sum and what is left of [first, last_decimal). *)
Fixpoint whole_part (m : list ascii) (result : float)
  : option (float * list ascii) :=
  match m with
  | [] => Some (result, [])
  | chr :: m' =>
      if Ascii.eqb chr chr_dot then Some (result, m')
      else
        let digit := chrdigit chr 10 in
        if digit <? 0 then None
        else whole_part m' (result * 10 + fp_of_digit digit)%float
  end.

(** The fractional part: [*(--last_decimal)] walks the rest of the mantissa
    from its last character back, so the loop runs over the reversed
    range. *)
Fixpoint fraction_back (r : list ascii) (decimals : float) : option float :=
  match r with
  | [] => Some decimals
  | chr :: r' =>
      let digit := chrdigit chr 10 in
      if digit <? 0 then None
      else fraction_back r' (decimals / 10 + fp_of_digit digit)%float
  end.

(** [while (exponent--) result *= 10] and [while (exponent++) result /= 10]. *)
Definition scale (result : float) (exponent : Z) : float :=
  if exponent >? 0 then
    Nat.iter (Z.to_nat exponent) (fun r => r * 10)%float result
  else if exponent <? 0 then
    Nat.iter (Z.to_nat (- exponent)) (fun r => r / 10)%float result
  else result.

(** [to_floating_point(first, last, Fp{})] for [Fp = double]. *)
Definition to_floating_point (s : list ascii) : option float :=
  match trim s with
  | None => None
  | Some t =>
      match take_sign float t with
      | Return r => r
      | Next (sign, t) =>
          let l := chrlower (hd chr_nul t) in
          if (l =? code "i") || (l =? code "n") then
            let default_result := zero in
            let result := check_fp_constants t default_result in
            if (result =? default_result)%float then None
            else Some (if sign then (- result)%float else result)
          else
            let (mantissa, exp) := find_exp t in
            match whole_part mantissa zero with
            | None => None
            | Some (result, rest) =>
                match fraction_back (rev rest) zero with
                | None => None
                | Some decimals =>
                    let result := (result + decimals / 10)%float in
                    match exp with
                    | [] => Some (if sign then (- result)%float else result)
                    | _ :: exponent_text =>
                        match to_integer wrap_int exponent_text 10 with
                        | None => None
                        | Some exponent =>
                            let result := scale result exponent in
                            Some (if sign then (- result)%float else result)
                        end
                    end
                end
            end
      end
  end.

End Convert.

(** ** cppsv_common.h *)

Module Header.

(** [cppsv_header<CharT>::value] and [size]. *)
Definition value : list ascii :=
  [chr_quote; "c"; "p"; "p"; "s"; "v"; chr_quote; chr_nl]%char.
Definition size : nat := length value.

(** [std::equal(first1, last1, first2)]: as many characters of the second
    range as the first one has.  The caller has checked that they exist. *)
Fixpoint equal (r1 r2 : list ascii) : bool :=
  match r1, r2 with
  | [], _ => true
  | a :: r1', b :: r2' => Ascii.eqb a b && equal r1' r2'
  | _ :: _, [] => false
  end.

Definition has_header (iterable : list ascii) : bool :=
  (size <=? length iterable)%nat && equal value iterable.

End Header.

(** ** cppsv_rt.h *)

Module View.

Definition view_type : Type := list ascii.

(** What a member function does: return a value, leave through the
    [std::out_of_range] that [vector::at] throws, or run into undefined
    behaviour ([operator[]] past the end of a vector). *)
Inductive outcome (A : Type) : Type :=
| Ok (a : A)
| OutOfRange
| Undefined.
Arguments Ok {A} a.
Arguments OutOfRange {A}.
Arguments Undefined {A}.

(** [v.at(i)] *)
Definition at_ (A : Type) (v : list A) (i : nat) : outcome A :=
  match nth_error v i with
  | Some a => Ok a
  | None => OutOfRange
  end.

(** [v[i]] *)
Definition index (A : Type) (v : list A) (i : nat) : outcome A :=
  match nth_error v i with
  | Some a => Ok a
  | None => Undefined
  end.

(** [v[i] = a] on a vector: the updated vector, or nothing when [i] is past
    the end (undefined behaviour). *)
Fixpoint assign (A : Type) (v : list A) (i : nat) (a : A) : option (list A) :=
  match v, i with
  | [], _ => None
  | _ :: v', O => Some (a :: v')
  | b :: v', S i' => option_map (cons b) (assign v' i' a)
  end.

(** [calc_x]: the column count, from the first record. *)
Fixpoint calc_x_loop (data : list ascii) (in_quotes : bool) (out : nat) : nat :=
  match data with
  | [] => out
  | chr :: data' =>
      let in_quotes := xorb in_quotes (Ascii.eqb chr chr_quote) in
      if in_quotes then calc_x_loop data' in_quotes out
      else
        let out := if Ascii.eqb chr chr_comma then S out else out in
        if Ascii.eqb chr chr_nl then out
        else calc_x_loop data' in_quotes out
  end.

Definition calc_x (data : list ascii) : nat := calc_x_loop data false 1.

(** [calc_y]: the row count. *)
Fixpoint calc_y_loop (data : list ascii) (x : nat) (in_quotes : bool)
    (out index : nat) : nat :=
  match data with
  | [] => out
  | chr :: data' =>
      let in_quotes := xorb in_quotes (Ascii.eqb chr chr_quote) in
      if in_quotes then calc_y_loop data' x in_quotes out index
      else
        let '(out, index) :=
          if Ascii.eqb chr chr_comma && (index <? x)%nat
          then (S out, S index) else (out, index) in
        let '(out, index) :=
          if Ascii.eqb chr chr_nl then (S out, O) else (out, index) in
        calc_y_loop data' x in_quotes out index
  end.

Definition calc_y (data : list ascii) (x : nat) : nat :=
  calc_y_loop data x false 1 0 / x.

(** [strip_field]: strip a leading comma, then wrapping quotes. *)
Definition strip_field (view : view_type) : view_type :=
  let view :=
    match view with
    | c :: view' => if Ascii.eqb c chr_comma then view' else view
    | [] => view
    end in
  if (1 <? length view)%nat
     && Ascii.eqb (hd chr_nul view) chr_quote
     && Ascii.eqb (last view chr_nul) chr_quote
  then removelast (tl view)
  else view.

(** The view [{ field_first, first }] of [data_view], both given as
    offsets from [data_view.begin()]. *)
Definition slice (data_view : list ascii) (field_first first : nat)
  : view_type :=
  firstn (first - field_first) (skipn field_first data_view).

Definition grid : Type := list (list view_type).

(** [out[index_y][index_x] = field] *)
Definition store (out : grid) (index_y index_x : nat) (field : view_type)
  : option grid :=
  match nth_error out index_y with
  | None => None
  | Some row =>
      match assign row index_x field with
      | None => None
      | Some row' => assign out index_y row'
      end
  end.

(** The variables of the scan loop of [calc_fields]. *)
Record scan_state : Type := {
  in_quotes : bool;
  field_first : nat;
  index_x : nat;
  index_y : nat;
  out : grid
}.

(** The scan loop of [calc_fields]: [rest] is the range [first, last) and
    [first] the offset of its head in [data_view]. *)
Fixpoint scan (data_view : list ascii) (x : nat) (rest : list ascii)
    (first : nat) (st : scan_state) : option grid :=
  match rest with
  | [] => Some (out st)
  | chr :: rest' =>
      let in_quotes := xorb (in_quotes st) (Ascii.eqb chr chr_quote) in
      if in_quotes then
        scan data_view x rest' (S first)
          {| in_quotes := in_quotes; field_first := field_first st;
             index_x := index_x st; index_y := index_y st; out := out st |}
      else
        let stored :=
          if (Ascii.eqb chr chr_comma || Ascii.eqb chr chr_nl)
             && (index_x st <? x)%nat
          then
            option_map (fun out' => (out', S first, S (index_x st)))
              (store (out st) (index_y st) (index_x st)
                 (strip_field (slice data_view (field_first st) first)))
          else Some (out st, field_first st, index_x st) in
        match stored with
        | None => None
        | Some (out', field_first', index_x') =>
            let '(index_x', index_y') :=
              if Ascii.eqb chr chr_nl then (O, S (index_y st))
              else (index_x', index_y st) in
            scan data_view x rest' (S first)
              {| in_quotes := in_quotes; field_first := field_first';
                 index_x := index_x'; index_y := index_y'; out := out' |}
        end
  end.

(** [calc_fields]: the grid of fields, [None] when a store lands outside
    the grid. *)
Definition calc_fields (data : list ascii) : option grid :=
  if negb (Header.has_header data) then Some []
  else
    let data_view := skipn Header.size data in
    let x := calc_x data_view in
    let y := calc_y data_view x in
    let out := repeat (repeat ([] : view_type) x) y in
    scan data_view x data_view 0
      {| in_quotes := false; field_first := 0;
         index_x := 0; index_y := 0; out := out |}.

(** The class: the owned text and the grid computed from it. *)
Record runtime_cppsv_view : Type := {
  data : list ascii;
  fields : grid
}.

(** The constructor. *)
Definition make (data : list ascii) : option runtime_cppsv_view :=
  option_map (fun fields => {| data := data; fields := fields |})
    (calc_fields data).

Definition bind (A B : Type) (o : outcome A) (k : A -> outcome B) : outcome B :=
  match o with
  | Ok a => k a
  | OutOfRange => OutOfRange
  | Undefined => Undefined
  end.

(** [columns()]: [fields[0].size()]. *)
Definition columns (v : runtime_cppsv_view) : outcome nat :=
  bind (index (fields v) 0) (fun row => Ok (length row)).

(** [rows()] *)
Definition rows (v : runtime_cppsv_view) : nat := length (fields v).

(** [get_row(row_index)] *)
Definition get_row (v : runtime_cppsv_view) (row_index : nat)
  : outcome (list view_type) :=
  at_ (fields v) row_index.

(** [get_field(column_index, row_index)] *)
Definition get_field_at (v : runtime_cppsv_view) (column_index row_index : nat)
  : outcome view_type :=
  bind (at_ (fields v) row_index) (fun row => at_ row column_index).

(** [get_field(row, column_index)] *)
Definition get_field_index (row : list view_type) (column_index : nat)
  : outcome view_type :=
  at_ row column_index.

Definition view_eqb (a b : view_type) : bool :=
  if list_eq_dec ascii_dec a b then true else false.

(** The loop of [get_field(row, column_name)] over the header record. *)
Fixpoint name_index (header : list view_type) (column_name : view_type)
    (index : nat) : nat :=
  match header with
  | [] => index
  | field :: header' =>
      if view_eqb field column_name then index
      else name_index header' column_name (S index)
  end.

(** [get_field(row, column_name)] *)
Definition get_field_name (v : runtime_cppsv_view) (row : list view_type)
    (column_name : view_type) : outcome view_type :=
  bind (index (fields v) 0) (fun header =>
    at_ row (name_index header column_name 0)).

(** [get_field(column_name, row_index)] *)
Definition get_field (v : runtime_cppsv_view) (column_name : view_type)
    (row_index : nat) : outcome view_type :=
  bind (get_row v row_index) (fun row => get_field_name v row column_name).

(** [find_field(function)] *)
Fixpoint find_in_row (function : view_type -> bool) (row : list view_type)
  : option view_type :=
  match row with
  | [] => None
  | field :: row' =>
      if function field then Some field else find_in_row function row'
  end.

Fixpoint find_in_rows (function : view_type -> bool) (rows : grid)
  : option view_type :=
  match rows with
  | [] => None
  | row :: rows' =>
      match find_in_row function row with
      | Some field => Some field
      | None => find_in_rows function rows'
      end
  end.

Definition find_field (v : runtime_cppsv_view) (function : view_type -> bool)
  : view_type :=
  match find_in_rows function (fields v) with
  | Some field => field
  | None => []
  end.

(** [find_row(function)] *)
Fixpoint find_in_grid (function : list view_type -> bool) (rows : grid)
  : option (list view_type) :=
  match rows with
  | [] => None
  | row :: rows' =>
      if function row then Some row else find_in_grid function rows'
  end.

Definition find_row (v : runtime_cppsv_view)
    (function : list view_type -> bool) : outcome (list view_type) :=
  match find_in_grid function (fields v) with
  | Some row => Ok row
  | None => bind (columns v) (fun n => Ok (repeat ([] : view_type) n))
  end.

End View.

(** * Vocabulary of the statements *)

Module Spec.
Import Convert.
Local Open Scope Z_scope.

(** The characters the trim loop removes from the back. *)
Definition blank (c : ascii) : Prop := c = chr_space \/ c = chr_nul.

(** The value of a character as a digit: ['0'..'9'] are 0..9, the letters
    of either case are 10..35, anything else is no digit. *)
Definition digit_value (c : ascii) : Z :=
  if (code "0" <=? code c) && (code c <=? code "9") then code c - code "0"
  else if (code "a" <=? code c) && (code c <=? code "z")
       then code c - code "a" + 10
  else if (code "A" <=? code c) && (code c <=? code "Z")
       then code c - code "A" + 10
  else -1.

Definition valid_digit (base : Z) (c : ascii) : Prop :=
  0 <= digit_value c < base.

(** Left-to-right positional accumulation from [result]. *)
Definition horner_from (wrap : Z -> Z) (base : Z) (ds : list ascii)
    (result : Z) : Z :=
  fold_left (fun r c => wrap (r * base + digit_value c)) ds result.

Definition horner (wrap : Z -> Z) (base : Z) (ds : list ascii) : Z :=
  horner_from wrap base ds 0.

(** The mantissa of [to_floating_point]: the whole part, then the digits
    behind the decimal point, added as [decimals / 10]. *)
Definition mantissa (m : list ascii) : option float :=
  match whole_part m zero with
  | None => None
  | Some (result, rest) =>
      match fraction_back (rev rest) zero with
      | None => None
      | Some decimals => Some (result + decimals / 10)%float
      end
  end.

(** The first normalization of a field: one leading comma goes. *)
Definition drop_separator (v : list ascii) : list ascii :=
  match v with
  | c :: v' => if Ascii.eqb c chr_comma then v' else v
  | [] => []
  end.

(** [wrapped v inner]: [v] is [inner] between two quote characters. *)
Inductive wrapped : list ascii -> list ascii -> Prop :=
| wrapped_intro (inner : list ascii) :
    wrapped (chr_quote :: inner ++ [chr_quote]) inner.

(** A line of text: the characters of [s] and a newline. *)
Definition line (s : string) : list ascii := chars s ++ [chr_nl].

(** No exponent marker. *)
Definition no_exp (d : ascii) : Prop := chrlower d <> code "e".

End Spec.

(** Well-formed rectangular bodies: records of raw fields, written out with
    a comma between fields and a newline behind every record. *)
Module Body.
Import View.

(** Reading a raw field from quote state [q] meets no comma or newline
    outside quotes and ends outside quotes. *)
Fixpoint field_ok_from (q : bool) (f : list ascii) : bool :=
  match f with
  | [] => negb q
  | c :: f' =>
      let q' := xorb q (Ascii.eqb c chr_quote) in
      (q' || negb (Ascii.eqb c chr_comma || Ascii.eqb c chr_nl))
      && field_ok_from q' f'
  end.

Definition field_ok (f : list ascii) : Prop := field_ok_from false f = true.

Fixpoint render_record (r : list (list ascii)) : list ascii :=
  match r with
  | [] => []
  | f :: r' =>
      f ++ (match r' with [] => chr_nl | _ :: _ => chr_comma end)
        :: render_record r'
  end.

Definition render (recs : list (list (list ascii))) : list ascii :=
  concat (map render_record recs).

(** Every record has [x] fields, [x] at least one, all of them readable. *)
Definition rectangular (x : nat) (recs : list (list (list ascii))) : Prop :=
  (0 < x)%nat /\
  Forall (fun r => length r = x /\ Forall field_ok r) recs.

(** The commas of a text that stand outside quotes. *)
Fixpoint outside_commas (q : bool) (s : list ascii) : nat :=
  match s with
  | [] => 0
  | c :: s' =>
      let q' := xorb q (Ascii.eqb c chr_quote) in
      (if negb q' && Ascii.eqb c chr_comma then 1 else 0)
      + outside_commas q' s'
  end.

(** What a cell of the grid over [data_view] can hold: the empty view it
    was allocated with, or the stripped slice that ends at a comma or a
    newline of [data_view]. *)
Definition stored_from (data_view : list ascii) (field : view_type) : Prop :=
  field = [] \/
  exists field_first first d,
    nth_error data_view first = Some d /\
    (d = chr_comma \/ d = chr_nl) /\
    field = strip_field (slice data_view field_first first).

(** The scan state with the quote flag replaced. *)
Definition with_quotes (b : bool) (st : scan_state) : scan_state :=
  {| in_quotes := b; field_first := field_first st;
     index_x := index_x st; index_y := index_y st; out := out st |}.

End Body.

(** Inputs of the scenarios. *)
Module Examples.
Import View Spec Body.

(** The scenario table, behind the magic header. *)
Definition people : list ascii :=
  Header.value
  ++ line "Name,Age,City" ++ line "Alice,30,Paris" ++ line "Bob,25,Tokyo".

(** The view of the scenario table. *)
Definition people_view : runtime_cppsv_view :=
  {| data := people;
     fields := [[chars "Name"; chars "Age"; chars "City"];
                [chars "Alice"; chars "30"; chars "Paris"];
                [chars "Bob"; chars "25"; chars "Tokyo"]] |}.

(** A body whose first field is a quoted text with a doubled quote and a
    comma inside. *)
Definition quoted_body : list ascii :=
  [chr_quote] ++ chars "a" ++ [chr_quote; chr_quote] ++ chars "b,c"
  ++ [chr_quote] ++ line ",d".

(** A view with one row of two empty fields: the header and the single
    record [,]. *)
Definition two_empty_fields : runtime_cppsv_view :=
  {| data := Header.value ++ line ",";
     fields := [[ []; [] ]] |}.

(** Two records of two fields. *)
Definition key_value : list (list (list ascii)) :=
  [[chars "k"; chars "v"]; [chars "1"; chars "2"]].

End Examples.

(** ** cppsv_rt.h, the iteration members *)

Module Iterate.
Import View.

(** [for_each_field(function)]: the callable is invoked for its effects;
    [S] is the state it acts on and [function s field] that state after
    the call on [field]. *)
Definition for_each_field (S : Type) (v : runtime_cppsv_view)
    (function : S -> view_type -> S) (s : S) : S :=
  fold_left (fun s row => fold_left function row s) (fields v) s.

(** [for_each_row(function)] *)
Definition for_each_row (S : Type) (v : runtime_cppsv_view)
    (function : S -> list view_type -> S) (s : S) : S :=
  fold_left function (fields v) s.

End Iterate.

(** ** Further vocabulary *)

Module Shapes.
Import Convert View Spec Body.
Local Open Scope Z_scope.

Definition chr_plus : ascii := "+"%char.

(** The letters that select a base behind a leading zero. *)
Inductive prefix_letter : ascii -> Z -> Prop :=
| prefix_x : prefix_letter "x" 16
| prefix_X : prefix_letter "X" 16
| prefix_o : prefix_letter "o" 8
| prefix_O : prefix_letter "O" 8
| prefix_b : prefix_letter "b" 2
| prefix_B : prefix_letter "B" 2.

(** [a] is the lowercase letter [b] or its capital. *)
Definition either_case (a b : ascii) : bool :=
  Ascii.eqb a b || (code a + 32 =? code b).

(** [s] spells the lowercase word [lit], in any mix of cases. *)
Fixpoint is_word (s lit : list ascii) : bool :=
  match s, lit with
  | [], [] => true
  | a :: s', b :: lit' => either_case a b && is_word s' lit'
  | _, _ => false
  end.

(** A decimal digit. *)
Definition dec (c : ascii) : Prop := valid_digit 10 c.

(** Digits, or digits, a point and digits; either run may be empty. *)
Definition decimal_syntax (m : list ascii) : Prop :=
  exists w f,
    Forall dec w /\ Forall dec f /\ (m = w \/ m = w ++ chr_dot :: f).

(** The newlines of a text that stand outside quotes. *)
Fixpoint outside_newlines (q : bool) (s : list ascii) : nat :=
  match s with
  | [] => 0
  | c :: s' =>
      let q' := xorb q (Ascii.eqb c chr_quote) in
      ((if negb q' && Ascii.eqb c chr_nl then 1 else 0)
       + outside_newlines q' s')%nat
  end.

(** Fields written out with a comma behind each. *)
Definition commas (fs : list (list ascii)) : list ascii :=
  concat (map (fun f => f ++ [chr_comma]) fs).

(** A last record whose newline is missing: [fs] with their commas, then
    [f]. *)
Definition render_open (fs : list (list ascii)) (f : list ascii)
  : list ascii :=
  commas fs ++ f.

(** A row of [x] cells that holds the stripped fields of [r] in front and
    empty views behind. *)
Definition padded (x : nat) (r : list (list ascii)) : list view_type :=
  map strip_field r ++ repeat [] (x - length r).

(** Every record has between one and [x] fields, all of them readable. *)
Definition short_records (x : nat) (recs : list (list (list ascii))) : Prop :=
  Forall (fun r => (1 <= length r <= x)%nat /\ Forall field_ok r) recs.

(** The fields of all records together. *)
Definition cells (recs : list (list (list ascii))) : nat :=
  length (concat recs).

End Shapes.

(** * Properties *)

(** ** The trim loop *)

Module TrimFacts.
Import Convert Spec.

Lemma back_is_blank_app (s : list ascii) (b : ascii) :
  back_is_blank (s ++ [b]) = (Ascii.eqb b chr_space || Ascii.eqb b chr_nul).
Proof. unfold back_is_blank. now rewrite last_last. Qed.

Lemma blank_eqb (b : ascii) :
  blank b <-> (Ascii.eqb b chr_space || Ascii.eqb b chr_nul) = true.
Proof.
  unfold blank. rewrite orb_true_iff, !Ascii.eqb_eq. tauto.
Qed.

Lemma trim_cons (c : ascii) (s : list ascii) :
  trim (c :: s) =
    if Ascii.eqb c chr_space then trim s
    else if back_is_blank (c :: s) then trim (removelast (c :: s))
    else Some (c :: s).
Proof. now simp trim. Qed.

(** Leading spaces go, however many there are. *)
Lemma trim_leading (n : nat) (s : list ascii) :
  trim (repeat chr_space n ++ s) = trim s.
Proof.
  induction n as [|n IH]; simpl; [reflexivity|].
  now rewrite trim_cons, Ascii.eqb_refl.
Qed.

(** Behind a first character that is no space, trailing blanks go, however
    many there are. *)
Lemma trim_trailing (c : ascii) (t post : list ascii) :
  c <> chr_space -> Forall blank post ->
  trim (c :: t ++ post) = trim (c :: t).
Proof.
  intros Hc. induction post as [|b post IH] using rev_ind; intros Hp.
  - now rewrite app_nil_r.
  - apply Forall_app in Hp as [Hp Hb]. inversion_clear Hb as [|? ? Hb' _].
    rewrite trim_cons.
    apply Ascii.eqb_neq in Hc. rewrite Hc.
    replace (c :: t ++ post ++ [b]) with ((c :: t ++ post) ++ [b])
      by (simpl; now rewrite <- app_assoc).
    rewrite back_is_blank_app.
    apply blank_eqb in Hb'. rewrite Hb'.
    rewrite removelast_last. now apply IH.
Qed.

Lemma trim_fixed (t : list ascii) :
  t <> [] -> hd chr_nul t <> chr_space -> back_is_blank t = false ->
  trim t = Some t.
Proof.
  destruct t as [|c t]; [congruence|]. simpl. intros _ Hc Hb.
  rewrite trim_cons. apply Ascii.eqb_neq in Hc. now rewrite Hc, Hb.
Qed.

(** A range of blanks only is trimmed away entirely. *)
Lemma trim_blank (s : list ascii) : Forall blank s -> trim s = None.
Proof.
  remember (length s) as n eqn:Hn. revert s Hn.
  induction n as [n IH] using lt_wf_ind. intros s Hn Hs.
  destruct s as [|c s]; [now simp trim|].
  rewrite trim_cons.
  destruct (Ascii.eqb c chr_space) eqn:Hc.
  - apply (IH (length s)); [subst; simpl; lia|reflexivity|].
    now inversion Hs.
  - assert (Hne : c :: s <> []) by discriminate.
    destruct (exists_last Hne) as (s0 & b & Heq). rewrite Heq in *.
    apply Forall_app in Hs as [Hs0 Hb]. inversion_clear Hb as [|? ? Hb' _].
    rewrite back_is_blank_app. apply blank_eqb in Hb'. rewrite Hb'.
    rewrite removelast_last.
    apply (IH (length s0)); [|reflexivity|assumption].
    subst n. rewrite length_app. simpl. lia.
Qed.

(** What [trim] returns is the input without a run of spaces in front and
    a run of blanks behind, and neither end can be trimmed further. *)
Lemma trim_some (s t : list ascii) :
  trim s = Some t ->
  exists n post,
    s = repeat chr_space n ++ t ++ post /\ Forall blank post /\
    t <> [] /\ hd chr_nul t <> chr_space /\ back_is_blank t = false.
Proof.
  remember (length s) as k eqn:Hk. revert s Hk.
  induction k as [k IH] using lt_wf_ind. intros s Hk.
  destruct s as [|c s]; [simp trim; discriminate|].
  rewrite trim_cons.
  destruct (Ascii.eqb c chr_space) eqn:Hc.
  - intros H. apply (IH (length s)) in H; [|subst; simpl; lia|reflexivity].
    destruct H as (n & post & -> & H).
    apply Ascii.eqb_eq in Hc. subst c. now exists (S n), post.
  - destruct (back_is_blank (c :: s)) eqn:Hb.
    + assert (Hne : c :: s <> []) by discriminate.
      destruct (exists_last Hne) as (s0 & b & Heq). rewrite Heq in *.
      assert (Hbl : blank b)
        by (apply blank_eqb; now rewrite <- (back_is_blank_app s0)).
      rewrite removelast_last. intros H.
      apply (IH (length s0)) in H;
        [|subst k; rewrite length_app; simpl; lia|reflexivity].
      destruct H as (n & post & -> & Hp & H).
      exists n, (post ++ [b]). split; [now rewrite <- !app_assoc|].
      split; [|exact H].
      apply Forall_app. split; [assumption|]. now constructor.
    + intros [= <-]. exists 0, []. simpl. rewrite app_nil_r.
      repeat split; try discriminate; auto.
      now apply Ascii.eqb_neq.
Qed.

End TrimFacts.

(** ** to_integer *)

Module IntegerFacts.
Import Convert Spec TrimFacts.
Local Open Scope Z_scope.

(** The lookup table and the range check of [chrdigit], read as a whole. *)
Lemma chrdigit_value (c : ascii) (base : Z) :
  chrdigit c base =
    if (0 <=? digit_value c) && (digit_value c <? base)
    then digit_value c else -1.
Proof.
  destruct c as [[] [] [] [] [] [] [] []]; cbv -[Z.ltb]; try reflexivity;
    destruct (_ <? base); reflexivity.
Qed.

Lemma digit_value_range (c : ascii) : -1 <= digit_value c <= 35.
Proof.
  destruct c as [[] [] [] [] [] [] [] []]; vm_compute; split; discriminate.
Qed.

Lemma chrdigit_valid (c : ascii) (base : Z) :
  valid_digit base c -> chrdigit c base = digit_value c.
Proof.
  intros [H0 H1]. rewrite chrdigit_value.
  apply Z.leb_le in H0. apply Z.ltb_lt in H1. now rewrite H0, H1.
Qed.

Lemma chrdigit_invalid (c : ascii) (base : Z) :
  ~ valid_digit base c -> chrdigit c base = -1.
Proof.
  intros H. rewrite chrdigit_value.
  destruct (0 <=? digit_value c) eqn:H0; [|reflexivity].
  destruct (digit_value c <? base) eqn:H1; [|reflexivity].
  exfalso. apply H. split; [now apply Z.leb_le|now apply Z.ltb_lt].
Qed.

Section Wrap.
Variable wrap : Z -> Z.

Lemma accumulate_valid (base : Z) (ds : list ascii) (r : Z) :
  Forall (valid_digit base) ds ->
  accumulate wrap base ds r = Some (horner_from wrap base ds r).
Proof.
  intros H. revert r. induction H as [|c ds Hc _ IH]; intros r.
  - reflexivity.
  - simpl. rewrite (chrdigit_valid Hc).
    destruct Hc as [H0 _].
    apply Z.ltb_ge in H0. rewrite H0. apply IH.
Qed.

Lemma accumulate_invalid (base : Z) (ds : list ascii) (r : Z) :
  Exists (fun c => ~ valid_digit base c) ds ->
  accumulate wrap base ds r = None.
Proof.
  intros H. revert r. induction H as [c ds Hc|c ds _ IH]; intros r.
  - simpl. now rewrite (chrdigit_invalid Hc).
  - simpl. destruct (chrdigit c base <? 0); [reflexivity|apply IH].
Qed.

(** A digit is neither a space, a NUL nor a minus sign. *)
Lemma valid_digit_plain (base : Z) (c : ascii) :
  valid_digit base c ->
  c <> chr_space /\ c <> chr_nul /\ c <> chr_minus.
Proof.
  intros [H _]. repeat split; intros ->; vm_compute in H; now apply H.
Qed.

(** [to_integer] behind the trim loop. *)
Lemma to_integer_trimmed (s t : list ascii) (radix : Z) :
  trim s = Some t -> to_integer wrap s radix = to_integer wrap t radix.
Proof.
  intros H. unfold to_integer. rewrite H.
  destruct (trim_some _ H) as (_ & _ & _ & _ & Ht & Hh & Hb).
  now rewrite (trim_fixed Ht Hh Hb).
Qed.

(** A range that starts with a character other than space, minus and
    zero, and does not end in a blank, goes to the digit loop whole. *)
Lemma to_integer_plain (c : ascii) (s : list ascii) (radix : Z) :
  c <> chr_space -> c <> chr_minus -> c <> chr_zero ->
  back_is_blank (c :: s) = false ->
  to_integer wrap (c :: s) radix = accumulate wrap radix (c :: s) 0.
Proof.
  intros Hs Hm Hz Hb. unfold to_integer.
  rewrite trim_fixed by (simpl; auto; discriminate).
  unfold take_sign. simpl hd.
  apply Ascii.eqb_neq in Hm, Hz. rewrite Hm. unfold prefix. rewrite Hz.
  now destruct (accumulate wrap radix (c :: s) 0).
Qed.

Lemma to_integer_minus (c : ascii) (s : list ascii) (radix : Z) :
  c <> chr_zero -> back_is_blank (c :: s) = false ->
  to_integer wrap (chr_minus :: c :: s) radix =
    option_map (fun r => wrap (- r))
      (accumulate wrap radix (c :: s) 0).
Proof.
  intros Hz Hb. unfold to_integer.
  rewrite trim_fixed; [| discriminate | simpl; discriminate | ].
  - unfold take_sign. simpl hd. simpl tl. rewrite Ascii.eqb_refl.
    unfold prefix. apply Ascii.eqb_neq in Hz. rewrite Hz.
    now destruct (accumulate wrap radix (c :: s) 0).
  - revert Hb. unfold back_is_blank. now simpl.
Qed.

Lemma valid_back (base : Z) (ds : list ascii) :
  ds <> [] -> Forall (valid_digit base) ds -> back_is_blank ds = false.
Proof.
  intros Hne H. destruct (exists_last Hne) as (s0 & b & ->).
  rewrite back_is_blank_app.
  apply Forall_app in H as [_ Hb]. inversion_clear Hb as [|? ? Hb' _].
  destruct (valid_digit_plain Hb') as (H1 & H2 & _).
  apply Ascii.eqb_neq in H1, H2. now rewrite H1, H2.
Qed.

End Wrap.

End IntegerFacts.

(** ** to_floating_point *)

Module FloatFacts.
Import Convert Spec TrimFacts.
Local Open Scope Z_scope.

Lemma scan_exp_split (m x : list ascii) (e : ascii) :
  Forall no_exp m -> chrlower e = code "e" ->
  scan_exp (m ++ e :: x) = (m, e :: x).
Proof.
  intros Hm He. induction Hm as [|d m Hd _ IH]; simpl.
  - now rewrite He.
  - apply Z.eqb_neq in Hd. now rewrite Hd, IH.
Qed.

Lemma scale_zero (r : float) : scale r 0 = r.
Proof. reflexivity. Qed.

Lemma scale_up (r : float) (k : Z) :
  0 <= k -> scale r (k + 1) = (scale r k * 10)%float.
Proof.
  intros Hk. unfold scale.
  replace (k + 1 >? 0) with true by (symmetry; apply Z.gtb_lt; lia).
  rewrite Z2Nat.inj_add by lia. rewrite Nat.add_comm. simpl Nat.iter.
  destruct (k >? 0) eqn:Hp; [reflexivity|].
  assert (k = 0) as -> by (rewrite Z.gtb_ltb in Hp; apply Z.ltb_ge in Hp; lia).
  reflexivity.
Qed.

Lemma scale_down (r : float) (k : Z) :
  k <= 0 -> scale r (k - 1) = (scale r k / 10)%float.
Proof.
  intros Hk. unfold scale.
  replace (k - 1 >? 0) with false
    by (symmetry; rewrite Z.gtb_ltb; apply Z.ltb_ge; lia).
  replace (k - 1 <? 0) with true by (symmetry; apply Z.ltb_lt; lia).
  replace (- (k - 1)) with (- k + 1) by lia.
  rewrite Z2Nat.inj_add by lia. rewrite Nat.add_comm. simpl Nat.iter.
  replace (k >? 0) with false
    by (symmetry; rewrite Z.gtb_ltb; apply Z.ltb_ge; lia).
  destruct (k <? 0) eqn:Hn; [reflexivity|].
  assert (k = 0) as -> by (apply Z.ltb_ge in Hn; lia).
  reflexivity.
Qed.

(** The exponent marker is never a blank. *)
Lemma exp_not_blank (e : ascii) :
  chrlower e = code "e" ->
  Ascii.eqb e chr_space || Ascii.eqb e chr_nul = false.
Proof.
  intros He.
  destruct (Ascii.eqb e chr_space) eqn:H1;
    [apply Ascii.eqb_eq in H1; subst; discriminate|].
  destruct (Ascii.eqb e chr_nul) eqn:H2;
    [apply Ascii.eqb_eq in H2; subst; discriminate|].
  reflexivity.
Qed.

Lemma back_is_blank_behind (s : list ascii) (e : ascii) (x : list ascii) :
  back_is_blank (s ++ e :: x) = back_is_blank (e :: x).
Proof.
  unfold back_is_blank. f_equal; f_equal;
    (induction s as [|a s IH]; [reflexivity|];
     simpl app; rewrite <- IH; destruct (s ++ e :: x) eqn:E;
     [now destruct s|reflexivity]).
Qed.

(** A mantissa with an exponent behind it: the float is the mantissa
    scaled by the integer read from the text after the marker. *)
Lemma with_exponent (sign : bool) (c : ascii) (m : list ascii) (e : ascii)
    (x : list ascii) :
  c <> chr_space -> c <> chr_minus ->
  chrlower c <> code "i" -> chrlower c <> code "n" ->
  Forall no_exp m -> chrlower e = code "e" ->
  back_is_blank (e :: x) = false ->
  to_floating_point
    ((if sign then [chr_minus] else []) ++ c :: m ++ e :: x) =
    match mantissa (c :: m) with
    | None => None
    | Some r =>
        match to_integer wrap_int x 10 with
        | None => None
        | Some k =>
            Some (if sign then (- scale r k)%float else scale r k)
        end
    end.
Proof.
  intros Hs Hm Hi Hn Hno He Hb. unfold to_floating_point.
  assert (Hbb : back_is_blank
            ((if sign then [chr_minus] else []) ++ c :: m ++ e :: x) = false).
  { replace ((if sign then [chr_minus] else []) ++ c :: m ++ e :: x)
      with (((if sign then [chr_minus] else []) ++ c :: m) ++ e :: x)
      by (now rewrite <- app_assoc).
    now rewrite back_is_blank_behind. }
  rewrite trim_fixed; [| now destruct sign | now destruct sign | exact Hbb].
  assert (Hts : take_sign float
            ((if sign then [chr_minus] else []) ++ c :: m ++ e :: x)
          = Next (sign, c :: m ++ e :: x)).
  { destruct sign; unfold take_sign; simpl.
    - reflexivity.
    - apply Ascii.eqb_neq in Hm. now rewrite Hm. }
  rewrite Hts. simpl hd.
  apply Z.eqb_neq in Hi, Hn. rewrite Hi, Hn. simpl orb. cbv iota.
  unfold find_exp. rewrite scan_exp_split by assumption.
  unfold mantissa.
  destruct (whole_part (c :: m) zero) as [[r rest]|]; [|reflexivity].
  destruct (fraction_back (rev rest) zero) as [d|]; [|reflexivity].
  now destruct (to_integer wrap_int x 10).
Qed.

End FloatFacts.

(** ** The grid *)

Module GridFacts.
Import View Body.

Lemma assign_length (A : Type) (v : list A) (i : nat) (a : A) (v' : list A) :
  assign v i a = Some v' -> length v' = length v.
Proof.
  revert i v'. induction v as [|b v IH]; intros [|i] v'; simpl;
    try discriminate.
  - now intros [= <-].
  - destruct (assign v i a) as [w|] eqn:E; [|discriminate].
    intros [= <-]. simpl. f_equal. now apply IH with i.
Qed.

Lemma assign_app (A : Type) (u : list A) (b : A) (w : list A) (a : A) :
  assign (u ++ b :: w) (length u) a = Some (u ++ a :: w).
Proof.
  induction u as [|c u IH]; simpl; [reflexivity|]. now rewrite IH.
Qed.

Lemma assign_Forall (A : Type) (P : A -> Prop) (v : list A) (i : nat) (a : A)
    (v' : list A) :
  assign v i a = Some v' -> Forall P v -> P a -> Forall P v'.
Proof.
  revert i v'. induction v as [|b v IH]; intros [|i] v'; simpl;
    try discriminate.
  - intros [= <-] Hv Ha. inversion Hv. now constructor.
  - destruct (assign v i a) as [w|] eqn:E; [|discriminate].
    intros [= <-] Hv Ha. inversion Hv. constructor; [assumption|].
    now apply IH with i.
Qed.

Lemma store_app (done : grid) (pf : list view_type) (old : view_type)
    (tailf : list view_type) (later : grid) (field : view_type) :
  store (done ++ (pf ++ old :: tailf) :: later) (length done) (length pf) field
  = Some (done ++ (pf ++ field :: tailf) :: later).
Proof.
  unfold store. rewrite nth_error_app2 by lia. rewrite Nat.sub_diag. simpl.
  rewrite assign_app. apply assign_app.
Qed.

(** A store changes neither the number of rows nor the length of a row. *)
Lemma store_shape (x : nat) (g : grid) (iy ix : nat) (field : view_type)
    (g' : grid) :
  store g iy ix field = Some g' ->
  Forall (fun row => length row = x) g ->
  length g' = length g /\ Forall (fun row => length row = x) g'.
Proof.
  unfold store. intros H Hg.
  destruct (nth_error g iy) as [row|] eqn:Hrow; [|discriminate].
  destruct (assign row ix field) as [row'|] eqn:Hrow'; [|discriminate].
  split; [now apply assign_length in H|].
  eapply assign_Forall; [exact H|exact Hg|].
  apply assign_length in Hrow'. rewrite Hrow'.
  apply nth_error_In in Hrow. rewrite Forall_forall in Hg. now apply Hg.
Qed.

Lemma store_Forall (P : view_type -> Prop) (g : grid) (iy ix : nat)
    (field : view_type) (g' : grid) :
  store g iy ix field = Some g' ->
  Forall (Forall P) g -> P field -> Forall (Forall P) g'.
Proof.
  unfold store. intros H Hg Hf.
  destruct (nth_error g iy) as [row|] eqn:Hrow; [|discriminate].
  destruct (assign row ix field) as [row'|] eqn:Hrow'; [|discriminate].
  eapply assign_Forall; [exact H|exact Hg|].
  eapply assign_Forall; [exact Hrow'| |exact Hf].
  apply nth_error_In in Hrow. rewrite Forall_forall in Hg. now apply Hg.
Qed.

Lemma skipn_head (l : list ascii) :
  forall (n : nat) (a : ascii) (r : list ascii),
    skipn n l = a :: r -> nth_error l n = Some a /\ skipn (S n) l = r.
Proof.
  induction l as [|b l IH]; intros [|n] a r; simpl; try discriminate.
  - intros [= -> ->]. now split.
  - intros H. now apply IH.
Qed.

(** Whatever the input, a cell of the grid is empty or holds the stripped
    slice in front of a delimiter. *)
Lemma scan_stored (dv : list ascii) (x : nat) (rest : list ascii) :
  forall (first : nat) (st : scan_state) (g : grid),
    skipn first dv = rest ->
    scan dv x rest first st = Some g ->
    Forall (Forall (stored_from dv)) (out st) ->
    Forall (Forall (stored_from dv)) g.
Proof.
  induction rest as [|chr rest IH]; intros first st g Hskip; simpl.
  - now intros [= <-].
  - apply skipn_head in Hskip as [Hchr Hskip].
    destruct (xorb (in_quotes st) (Ascii.eqb chr chr_quote)).
    + intros H Hg. now apply (IH _ _ _ Hskip) in H.
    + destruct ((Ascii.eqb chr chr_comma || Ascii.eqb chr chr_nl)
                && (index_x st <? x)%nat) eqn:Hd.
      * destruct (store _ _ _ _) as [g1|] eqn:Hst; simpl; [|discriminate].
        intros H Hg.
        assert (Hg1 : Forall (Forall (stored_from dv)) g1).
        { eapply store_Forall; [exact Hst|exact Hg|]. right.
          exists (field_first st), first, chr.
          split; [exact Hchr|]. split; [|reflexivity].
          apply andb_prop in Hd as [Hd _]. apply orb_prop in Hd.
          destruct Hd as [Hd|Hd]; apply Ascii.eqb_eq in Hd; auto. }
        destruct (Ascii.eqb chr chr_nl);
          now apply (IH _ _ _ Hskip) in H.
      * intros H Hg.
        destruct (Ascii.eqb chr chr_nl); now apply (IH _ _ _ Hskip) in H.
Qed.

Lemma calc_fields_stored (data : list ascii) (g : grid) :
  calc_fields data = Some g ->
  Forall (Forall (stored_from (skipn Header.size data))) g.
Proof.
  unfold calc_fields. destruct (negb (Header.has_header data)).
  - intros [= <-]. constructor.
  - intros H. apply scan_stored in H; [exact H|reflexivity|]. simpl.
    apply Forall_forall. intros row Hrow. apply repeat_spec in Hrow.
    subst row. apply Forall_forall. intros f Hf.
    apply repeat_spec in Hf. now left.
Qed.

(** The scan loop keeps the shape the grid was allocated with. *)
Lemma scan_shape (dv : list ascii) (x : nat) (rest : list ascii) :
  forall (first : nat) (st : scan_state) (g : grid),
    scan dv x rest first st = Some g ->
    Forall (fun row => length row = x) (out st) ->
    length g = length (out st) /\ Forall (fun row => length row = x) g.
Proof.
  induction rest as [|chr rest IH]; intros first st g; simpl.
  - intros [= <-]. now split.
  - destruct (xorb (in_quotes st) (Ascii.eqb chr chr_quote)).
    + intros H Hg. now apply IH in H.
    + destruct ((Ascii.eqb chr chr_comma || Ascii.eqb chr chr_nl)
                && (index_x st <? x)%nat).
      * destruct (store _ _ _ _) as [g1|] eqn:Hst; simpl; [|discriminate].
        intros H Hg. destruct (store_shape _ _ _ Hst Hg) as [Hl Hf].
        destruct (Ascii.eqb chr chr_nl); apply IH in H; simpl in *;
          try assumption; now rewrite <- Hl.
      * intros H Hg.
        destruct (Ascii.eqb chr chr_nl); now apply IH in H.
Qed.

(** Every grid [calc_fields] builds is rectangular. *)
Lemma calc_fields_shape (data : list ascii) (g : grid) :
  calc_fields data = Some g ->
  exists x, Forall (fun row => length row = x) g.
Proof.
  unfold calc_fields. destruct (negb (Header.has_header data)).
  - intros [= <-]. now exists 0.
  - intros H. exists (calc_x (skipn Header.size data)).
    apply scan_shape in H; [apply H|]. simpl.
    apply Forall_forall. intros row Hrow.
    apply repeat_spec in Hrow. subst row. apply repeat_length.
Qed.

(** The name loop stops at the first header field equal to the name, or
    at the length of the header. *)
Lemma name_index_found (header : list view_type) (name : view_type) (k : nat) :
  nth_error header k = Some name ->
  (forall j, j < k -> nth_error header j <> Some name) ->
  forall i, name_index header name i = i + k.
Proof.
  revert k. induction header as [|f header IH]; intros [|k]; simpl;
    try discriminate.
  - intros [= ->] _ i. unfold view_eqb.
    destruct (list_eq_dec ascii_dec name name); [lia|congruence].
  - intros Hk Hfirst i. unfold view_eqb.
    destruct (list_eq_dec ascii_dec f name) as [->|Hne].
    + exfalso. apply (Hfirst 0); [lia|reflexivity].
    + rewrite (IH k Hk); [lia|].
      intros j Hj. apply (Hfirst (S j)). lia.
Qed.

Lemma name_index_missing (header : list view_type) (name : view_type) :
  ~ In name header ->
  forall i, name_index header name i = i + length header.
Proof.
  induction header as [|f header IH]; simpl; intros Hn i; [lia|].
  unfold view_eqb. destruct (list_eq_dec ascii_dec f name) as [->|Hne].
  - exfalso. apply Hn. now left.
  - rewrite IH; [lia|]. intros H. apply Hn. now right.
Qed.

(** The nested loops of [find_field] visit the fields in row-major order. *)
Lemma find_in_rows_concat (function : view_type -> bool) (g : grid) :
  find_in_rows function g = find function (concat g).
Proof.
  induction g as [|row g IH]; simpl; [reflexivity|].
  rewrite IH. clear IH.
  induction row as [|f row IH]; simpl; [reflexivity|].
  now destruct (function f).
Qed.

Lemma find_in_grid_find (function : list view_type -> bool) (g : grid) :
  find_in_grid function g = find function g.
Proof.
  induction g as [|row g IH]; simpl; [reflexivity|].
  now destruct (function row).
Qed.

End GridFacts.

(** ** The tokenizer on well-formed bodies *)

Module BodyFacts.
Import View Body GridFacts.

Lemma nl_not_quote : Ascii.eqb chr_nl chr_quote = false.
Proof. reflexivity. Qed.
Lemma comma_not_quote : Ascii.eqb chr_comma chr_quote = false.
Proof. reflexivity. Qed.

(** One step of a readable field: either the quote flag is up afterwards,
    or the character is neither a quote, a comma nor a newline. *)
Ltac field_step q c H :=
  simpl in H; apply andb_prop in H; destruct H as [Hc H];
  destruct (xorb q (Ascii.eqb c chr_quote)) eqn:Hq;
  [| simpl in Hc; apply negb_true_iff, orb_false_elim in Hc;
     destruct Hc as [Hcomma Hnl] ].

Lemma calc_x_field (f rest : list ascii) :
  forall (q : bool) (out : nat),
    field_ok_from q f = true ->
    calc_x_loop (f ++ rest) q out = calc_x_loop rest false out.
Proof.
  induction f as [|c f IH]; intros q out H.
  - simpl in H. now destruct q.
  - field_step q c H; simpl; rewrite Hq.
    + now apply IH.
    + rewrite Hcomma, Hnl. now apply IH.
Qed.

Lemma calc_x_record (r : list (list ascii)) (rest : list ascii) :
  Forall field_ok r -> r <> [] ->
  forall out, calc_x_loop (render_record r ++ rest) false out
              = out + length r - 1.
Proof.
  induction 1 as [|f r Hf Hr IH]; intros Hne out; [congruence|].
  simpl render_record. rewrite <- app_assoc. rewrite calc_x_field by exact Hf.
  destruct r as [|g r].
  - simpl. lia.
  - simpl app at 1. cbn [calc_x_loop]. rewrite comma_not_quote. simpl xorb.
    cbv iota. replace (Ascii.eqb chr_comma chr_comma) with true by reflexivity.
    replace (Ascii.eqb chr_comma chr_nl) with false by reflexivity.
    rewrite IH by discriminate. simpl length. lia.
Qed.

Lemma calc_y_field (x : nat) (f rest : list ascii) :
  forall (q : bool) (out index : nat),
    field_ok_from q f = true ->
    calc_y_loop (f ++ rest) x q out index = calc_y_loop rest x false out index.
Proof.
  induction f as [|c f IH]; intros q out index H.
  - simpl in H. now destruct q.
  - field_step q c H; simpl; rewrite Hq.
    + now apply IH.
    + rewrite Hcomma, Hnl. simpl. now apply IH.
Qed.

Lemma calc_y_record (x : nat) (r : list (list ascii)) (rest : list ascii) :
  Forall field_ok r -> r <> [] ->
  forall out index, index + length r <= x ->
    calc_y_loop (render_record r ++ rest) x false out index
    = calc_y_loop rest x false (out + length r) 0.
Proof.
  induction 1 as [|f r Hf Hr IH]; intros Hne out index Hx; [congruence|].
  simpl render_record. rewrite <- app_assoc. rewrite calc_y_field by exact Hf.
  destruct r as [|g r].
  - simpl. now rewrite Nat.add_1_r.
  - simpl app at 1. cbn [calc_y_loop]. rewrite comma_not_quote. simpl xorb.
    cbv iota. replace (Ascii.eqb chr_comma chr_comma) with true by reflexivity.
    replace (Ascii.eqb chr_comma chr_nl) with false by reflexivity.
    simpl length in Hx.
    replace (index <? x) with true by (symmetry; apply Nat.ltb_lt; lia).
    simpl andb. cbv iota beta.
    rewrite IH by (try discriminate; simpl; lia).
    f_equal. simpl length. lia.
Qed.

Lemma calc_y_render (x : nat) (recs : list (list (list ascii))) :
  rectangular x recs ->
  forall out, calc_y_loop (render recs) x false out 0
              = out + length recs * x.
Proof.
  intros [Hx H]. induction H as [|r recs [Hl Hr] _ IH]; intros out.
  - simpl. lia.
  - unfold render. simpl concat. fold (render recs).
    rewrite calc_y_record; try assumption.
    + rewrite IH. simpl. lia.
    + intros ->. simpl in Hl. lia.
    + lia.
Qed.

Lemma outside_commas_field (f rest : list ascii) :
  forall q, field_ok_from q f = true ->
    outside_commas q (f ++ rest) = outside_commas false rest.
Proof.
  induction f as [|c f IH]; intros q H.
  - simpl in H. now destruct q.
  - field_step q c H; simpl; rewrite Hq; simpl.
    + now apply IH.
    + rewrite Hcomma. now apply IH.
Qed.

Lemma outside_commas_record (r : list (list ascii)) :
  Forall field_ok r ->
  outside_commas false (render_record r) = length r - 1.
Proof.
  induction 1 as [|f r Hf Hr IH]; [reflexivity|].
  simpl render_record. rewrite outside_commas_field by exact Hf.
  destruct r as [|g r]; [reflexivity|].
  cbn [outside_commas]. rewrite comma_not_quote. simpl xorb.
  replace (Ascii.eqb chr_comma chr_comma) with true by reflexivity.
  simpl negb. simpl andb. cbv iota. rewrite IH. simpl. lia.
Qed.

(** The column count of a rectangular body is the length of its records. *)
Lemma calc_x_render (x : nat) (r : list (list ascii))
    (recs : list (list (list ascii))) :
  rectangular x (r :: recs) -> calc_x (render (r :: recs)) = x.
Proof.
  intros [Hx H]. inversion_clear H as [|? ? [Hl Hr] _].
  unfold calc_x, render. simpl concat.
  rewrite calc_x_record; [lia|assumption|].
  intros ->. simpl in Hl. lia.
Qed.

(** The row count: one more than the number of records when there is a
    single column, the number of records otherwise. *)
Lemma calc_y_rows (x : nat) (recs : list (list (list ascii))) :
  rectangular x recs ->
  calc_y (render recs) x = if x =? 1 then S (length recs) else length recs.
Proof.
  intros H. unfold calc_y. rewrite (calc_y_render H).
  destruct H as [Hx _].
  destruct (x =? 1) eqn:E.
  - apply Nat.eqb_eq in E. subst x. rewrite Nat.div_1_r. lia.
  - apply Nat.eqb_neq in E.
    rewrite Nat.div_add by lia. rewrite Nat.div_small by lia. lia.
Qed.

Lemma slice_app (a f b : list ascii) :
  slice (a ++ f ++ b) (length a) (length a + length f) = f.
Proof.
  unfold slice. replace (length a + length f - length a) with (length f) by lia.
  rewrite skipn_app, Nat.sub_diag, skipn_all. simpl.
  rewrite firstn_app, Nat.sub_diag, firstn_all. simpl. apply app_nil_r.
Qed.

(** The scan loop over a readable field: nothing is stored. *)
Lemma scan_field (dv : list ascii) (x : nat) (f rest : list ascii) :
  forall (first : nat) (st : scan_state),
    field_ok_from (in_quotes st) f = true ->
    scan dv x (f ++ rest) first st
    = scan dv x rest (first + length f) (with_quotes false st).
Proof.
  induction f as [|c f IH]; intros first st H.
  - simpl in H. apply negb_true_iff in H. rewrite Nat.add_0_r.
    destruct st; simpl in *; now subst.
  - remember (in_quotes st) as q eqn:Eq.
    field_step q c H; simpl; rewrite <- Eq, Hq.
    + rewrite IH by exact H. f_equal. simpl. lia.
    + rewrite Hcomma, Hnl. simpl. rewrite IH by exact H. f_equal. simpl. lia.
Qed.

(** The scan loop at a delimiter outside quotes, with a column left. *)
Lemma scan_delim (dv : list ascii) (x : nat) (d : ascii) (rest : list ascii)
    (first : nat) (st : scan_state) (g' : grid) :
  in_quotes st = false -> d = chr_comma \/ d = chr_nl -> index_x st < x ->
  store (out st) (index_y st) (index_x st)
    (strip_field (slice dv (field_first st) first)) = Some g' ->
  scan dv x (d :: rest) first st
  = scan dv x rest (S first)
      {| in_quotes := false; field_first := S first;
         index_x := if Ascii.eqb d chr_nl then 0 else S (index_x st);
         index_y := if Ascii.eqb d chr_nl then S (index_y st) else index_y st;
         out := g' |}.
Proof.
  intros Hq Hd Hx Hst. simpl. rewrite Hq.
  apply Nat.ltb_lt in Hx. rewrite Hx, Hst.
  destruct Hd as [-> | ->]; reflexivity.
Qed.

Lemma scan_record (dv : list ascii) (x : nat) (done later : grid) :
  forall (r : list (list ascii)) (a : list ascii) (pf : list view_type)
         (b : list ascii),
    Forall field_ok r -> r <> [] ->
    dv = a ++ render_record r ++ b ->
    length pf + length r = x ->
    scan dv x (render_record r ++ b) (length a)
      {| in_quotes := false; field_first := length a;
         index_x := length pf; index_y := length done;
         out := done ++ (pf ++ repeat [] (length r)) :: later |}
    = scan dv x b (length (a ++ render_record r))
        {| in_quotes := false;
           field_first := length (a ++ render_record r);
           index_x := 0; index_y := S (length done);
           out := done ++ (pf ++ map strip_field r) :: later |}.
Proof.
  induction r as [|f r IH]; intros a pf b Hok Hne Hdv Hx; [congruence|].
  inversion_clear Hok as [|? ? Hf Hr].
  simpl render_record. rewrite <- app_assoc.
  rewrite scan_field by exact Hf.
  unfold with_quotes. cbn [in_quotes field_first index_x index_y out].
  rewrite <- app_comm_cons. cbn [length repeat].
  simpl render_record in Hdv. rewrite <- app_assoc in Hdv. simpl in Hdv.
  erewrite scan_delim; cycle 1.
  - reflexivity.
  - destruct r; [now right|now left].
  - simpl in *. lia.
  - simpl. rewrite Hdv at 1. rewrite slice_app. apply store_app.
  - cbn [in_quotes field_first index_x index_y out].
    destruct r as [|g r].
    + simpl. f_equal.
      * rewrite !length_app. simpl. lia.
      * f_equal. rewrite !length_app. simpl. lia.
    + replace (Ascii.eqb chr_comma chr_nl) with false by reflexivity.
      cbv iota.
      replace (S (length a + length f))
        with (length (a ++ f ++ [chr_comma]))
        by (rewrite !length_app; simpl; lia).
      replace (S (length pf)) with (length (pf ++ [strip_field f]))
        by (rewrite length_app; simpl; lia).
      replace (pf ++ strip_field f :: repeat [] (length (g :: r)))
        with ((pf ++ [strip_field f]) ++ repeat [] (length (g :: r)))
        by (now rewrite <- app_assoc).
      rewrite IH.
      * f_equal.
        -- now rewrite <- !app_assoc.
        -- f_equal; [now rewrite <- !app_assoc|].
           now rewrite <- !app_assoc.
      * exact Hr.
      * discriminate.
      * rewrite Hdv. now rewrite <- !app_assoc.
      * rewrite length_app. simpl in *. lia.
Qed.

Lemma scan_records (dv : list ascii) (x : nat) :
  forall (recs : list (list (list ascii))) (a : list ascii) (done : grid)
         (k : nat),
    rectangular x recs -> length recs <= k ->
    dv = a ++ render recs ->
    scan dv x (render recs) (length a)
      {| in_quotes := false; field_first := length a;
         index_x := 0; index_y := length done;
         out := done ++ repeat (repeat [] x) k |}
    = Some (done ++ map (map strip_field) recs
                 ++ repeat (repeat [] x) (k - length recs)).
Proof.
  induction recs as [|r recs IH]; intros a done k [Hx H] Hk Hdv.
  - simpl. now rewrite Nat.sub_0_r.
  - inversion_clear H as [|? ? [Hl Hr] Hrest].
    destruct k as [|k]; [simpl in Hk; lia|].
    unfold render in *. simpl concat in *. fold (render recs) in *.
    simpl repeat. rewrite <- Hl at 2.
    pose proof (@scan_record dv x done (repeat (repeat [] x) k) r a []
                  (render recs)) as E.
    cbn [length app] in E. etransitivity.
    { apply E; clear E;
        first [assumption | (intros ->; simpl in Hl; lia) | (simpl; lia)]. }
    clear E.
    replace (S (length done)) with (length (done ++ [map strip_field r]))
      by (rewrite length_app; simpl; lia).
    replace (done ++ map strip_field r :: repeat (repeat [] x) k)
      with ((done ++ [map strip_field r]) ++ repeat (repeat [] x) k)
      by (now rewrite <- app_assoc).
    rewrite IH.
    + simpl. now rewrite <- app_assoc.
    + now split.
    + simpl in Hk. lia.
    + rewrite Hdv. now rewrite <- app_assoc.
Qed.

Lemma has_header_value (body : list ascii) :
  Header.has_header (Header.value ++ body) = true.
Proof. reflexivity. Qed.

(** The grid of a rectangular body: every record becomes a row of its
    stripped fields; a single-column body gets one more row, holding one
    empty field. *)
Lemma calc_fields_render (x : nat) (r : list (list ascii))
    (recs : list (list (list ascii))) :
  rectangular x (r :: recs) ->
  calc_fields (Header.value ++ render (r :: recs))
  = Some (map (map strip_field) (r :: recs)
          ++ if x =? 1 then [[ [] ]] else []).
Proof.
  intros H. unfold calc_fields. rewrite has_header_value. simpl negb.
  cbv iota.
  replace (skipn Header.size (Header.value ++ render (r :: recs)))
    with (render (r :: recs)) by reflexivity.
  rewrite (calc_x_render H), (calc_y_rows H).
  etransitivity.
  { apply (@scan_records (render (r :: recs)) x (r :: recs) [] []
             (if x =? 1 then S (length (r :: recs))
              else length (r :: recs))).
    - exact H.
    - destruct (x =? 1); lia.
    - reflexivity. }
  f_equal. cbn [app]. f_equal.
  destruct (x =? 1) eqn:E.
  - apply Nat.eqb_eq in E. subst x.
    replace (S (length (r :: recs)) - length (r :: recs)) with 1 by lia.
    reflexivity.
  - now rewrite Nat.sub_diag.
Qed.

End BodyFacts.

(** * The claims *)

Import Convert View Spec Body Examples.
Import TrimFacts IntegerFacts FloatFacts GridFacts BodyFacts.

(** C1. The view built from the header followed by
    [Name,Age,City\nAlice,30,Paris\nBob,25,Tokyo\n] has 3 columns and 3 rows
    (the header record is row 0); field "Age" of row 1 is "30" and field
    "City" of row 2 is "Tokyo". *)
Theorem scenario_name_age_city :
  Header.has_header people = true /\
  exists v,
    make people = Some v /\
    columns v = Ok 3 /\
    rows v = 3 /\
    get_field v (chars "Age") 1 = Ok (chars "30") /\
    get_field v (chars "City") 2 = Ok (chars "Tokyo").
Proof.
  split; [vm_compute; reflexivity|].
  exists people_view. repeat split; vm_compute; reflexivity.
Qed.

(** C2. On a single-column body whose records all end in a newline,
    [rows()] is one more than the number of records: the view of the two
    records [a] and [b] has three rows, the last holding one empty field.
    This holds for every rectangular single-column body. *)
Theorem single_column_rows_off_by_one :
  (exists v,
      make (Header.value ++ line "a" ++ line "b") = Some v /\
      line "a" ++ line "b" = render [[chars "a"]; [chars "b"]] /\
      rectangular 1 [[chars "a"]; [chars "b"]] /\
      columns v = Ok 1 /\
      rows v = 3 /\
      fields v = [[chars "a"]; [chars "b"]; [[]]]) /\
  (forall r recs,
      rectangular 1 (r :: recs) ->
      exists v,
        make (Header.value ++ render (r :: recs)) = Some v /\
        rows v = S (length (r :: recs))).
Proof.
  split.
  - eexists. split; [vm_compute; reflexivity|].
    split; [vm_compute; reflexivity|].
    split; [split; [lia|repeat constructor]|].
    repeat split; vm_compute; reflexivity.
  - intros r recs H. unfold make.
    rewrite (calc_fields_render H). simpl option_map.
    eexists. split; [reflexivity|].
    unfold rows. cbn [fields length].
    rewrite length_app, length_map. unfold view_type. simpl. lia.
Qed.

(** For two or more columns the counts are right: the column count is the
    number of commas outside quotes in the first record plus one, and the
    row count is the number of records. *)
Theorem rectangular_columns_rows (x : nat) (r : list (list ascii))
    (recs : list (list (list ascii))) :
  rectangular x (r :: recs) -> 2 <= x ->
  exists v,
    make (Header.value ++ render (r :: recs)) = Some v /\
    columns v = Ok (outside_commas false (render_record r) + 1) /\
    columns v = Ok x /\
    rows v = length (r :: recs) /\
    fields v = map (map strip_field) (r :: recs).
Proof.
  intros H Hx. unfold make. rewrite (calc_fields_render H).
  replace (x =? 1) with false by (symmetry; apply Nat.eqb_neq; lia).
  rewrite app_nil_r. simpl option_map.
  destruct H as [_ H]. inversion_clear H as [|? ? [Hl Hr] _].
  eexists. split; [reflexivity|].
  unfold columns, rows. cbn [fields index nth_error map bind].
  rewrite !length_map, (outside_commas_record Hr).
  unfold view_type in *. rewrite Hl.
  repeat split; [f_equal; lia|].
  simpl. now rewrite length_map.
Qed.

(** The statement above on two records of two fields. *)
Lemma rectangular_columns_rows_witness :
  exists v,
    make (Header.value ++ render key_value) = Some v /\
    columns v
    = Ok (outside_commas false (render_record [chars "k"; chars "v"]) + 1) /\
    columns v = Ok 2 /\
    rows v = length key_value /\
    fields v = map (map strip_field) key_value.
Proof.
  apply (@rectangular_columns_rows 2 [chars "k"; chars "v"]
           [[chars "1"; chars "2"]]);
    [split; [lia|repeat constructor]|lia].
Defined.

(** Every grid the constructor builds is rectangular: all rows have the
    same number of fields. *)
Theorem grid_is_rectangular (data : list ascii) (v : runtime_cppsv_view) :
  make data = Some v ->
  exists x, Forall (fun row => length row = x) (fields v).
Proof.
  unfold make. destruct (calc_fields data) as [g|] eqn:Hg; [|discriminate].
  intros [= <-]. exact (calc_fields_shape _ Hg).
Qed.

(** The statement above on the scenario table. *)
Lemma grid_is_rectangular_witness :
  exists x, Forall (fun row => length row = x) (fields people_view).
Proof.
  apply (@grid_is_rectangular people people_view). vm_compute. reflexivity.
Defined.

(** The two normalizations of [strip_field], on any view. *)
Lemma strip_field_unfold (v : list ascii) :
  strip_field v =
    if (1 <? length (drop_separator v))
       && Ascii.eqb (hd chr_nul (drop_separator v)) chr_quote
       && Ascii.eqb (last (drop_separator v) chr_nul) chr_quote
    then removelast (tl (drop_separator v))
    else drop_separator v.
Proof.
  unfold strip_field, drop_separator. destruct v as [|c v]; [reflexivity|].
  now destruct (Ascii.eqb c chr_comma).
Qed.

Lemma strip_field_wrapped (v inner : list ascii) :
  wrapped (drop_separator v) inner -> strip_field v = inner.
Proof.
  rewrite strip_field_unfold. generalize (drop_separator v) as v1.
  intros v1.
  intros H. inversion H as [inner' Heq]. subst inner'.
  cbn [length hd tl]. rewrite length_app. cbn [length].
  replace (1 <? S (length inner + 1)) with true
    by (symmetry; apply Nat.ltb_lt; lia).
  rewrite Ascii.eqb_refl.
  replace (last (chr_quote :: inner ++ [chr_quote]) chr_nul) with chr_quote
    by (symmetry; apply (last_last (chr_quote :: inner))).
  rewrite Ascii.eqb_refl. simpl andb. cbv iota.
  apply removelast_last.
Qed.

Lemma strip_field_bare (v : list ascii) :
  (forall inner, ~ wrapped (drop_separator v) inner) ->
  strip_field v = drop_separator v.
Proof.
  rewrite strip_field_unfold. generalize (drop_separator v) as v1.
  intros v1.
  intros H.
  destruct ((1 <? length v1) && Ascii.eqb (hd chr_nul v1) chr_quote
            && Ascii.eqb (last v1 chr_nul) chr_quote) eqn:E; [|reflexivity].
  exfalso. apply andb_prop in E as [E E3]. apply andb_prop in E as [E1 E2].
  apply Nat.ltb_lt in E1. apply Ascii.eqb_eq in E2, E3.
  destruct v1 as [|q t]; [simpl in E1; lia|]. simpl in E2. subst q.
  destruct t as [|a t]; [simpl in E1; lia|].
  assert (Hne : a :: t <> []) by discriminate.
  destruct (exists_last Hne) as (inner & b & Hb).
  rewrite Hb in E3.
  change (chr_quote :: inner ++ [b]) with ((chr_quote :: inner) ++ [b]) in E3.
  rewrite last_last in E3. subst b.
  apply (H inner). rewrite Hb. constructor.
Qed.

(** C3. A stored field is the text between two delimiters with one leading
    comma dropped and then, when what is left is longer than one character
    and stands between two quotes, without those two quotes; the inner
    text is kept as it is.  Quoted [abc] gives [abc]; a doubled quote
    inside a quoted field stays in the field and does not end it. *)
Theorem stored_fields_are_stripped :
  (forall v inner, wrapped (drop_separator v) inner -> strip_field v = inner)
  /\ (forall v, (forall inner, ~ wrapped (drop_separator v) inner) ->
                strip_field v = drop_separator v)
  /\ (forall data g,
        calc_fields data = Some g ->
        Forall (Forall (stored_from (skipn Header.size data))) g)
  /\ (forall x r recs,
        rectangular x (r :: recs) ->
        exists extra,
          calc_fields (Header.value ++ render (r :: recs))
          = Some (map (map strip_field) (r :: recs) ++ extra)
          /\ Forall (Forall (fun f => f = [])) extra)
  /\ strip_field (chr_quote :: chars "abc" ++ [chr_quote]) = chars "abc"
  /\ calc_fields (Header.value ++ quoted_body)
     = Some [[chars "a" ++ [chr_quote; chr_quote] ++ chars "b,c"; chars "d"]].
Proof.
  split; [exact strip_field_wrapped|].
  split; [exact strip_field_bare|].
  split; [exact calc_fields_stored|].
  split.
  - intros x r recs H. rewrite (calc_fields_render H).
    eexists. split; [reflexivity|].
    destruct (x =? 1); repeat constructor.
  - split; vm_compute; reflexivity.
Qed.

(** C4, as stated, fails: two leading spaces are both removed. *)
Lemma trim_removes_two_leading_spaces :
  trim (chars "  42") = Some (chars "42")
  /\ to_integer wrap_int (chars "  42") 10 = Some 42%Z
  /\ ~ (exists pre post,
          chars "  42" = pre ++ chars "42" ++ post
          /\ length pre <= 1 /\ length post <= 1).
Proof.
  split; [vm_compute; reflexivity|].
  split; [vm_compute; reflexivity|].
  intros (pre & post & Heq & Hpre & Hpost).
  apply (f_equal (@length ascii)) in Heq as Hlen.
  rewrite !length_app in Hlen. simpl in Hlen.
  destruct pre as [|a [|b pre]]; simpl in *;
    [discriminate | injection Heq as _ Heq; discriminate | lia].
Qed.

(** C4, amended.  Before the sign and the digits, [to_integer] removes the
    whole run of leading spaces and the whole run of trailing spaces and
    NULs: what the loop leaves is the input without those two runs, it
    starts with no space and ends with no blank, and the number read is
    the number read from that remainder. *)
Theorem trim_removes_whole_runs (wrap : Z -> Z) (radix : Z) (s : list ascii) :
  (forall t,
      trim s = Some t <->
      exists n post,
        s = repeat chr_space n ++ t ++ post /\ Forall blank post /\
        t <> [] /\ hd chr_nul t <> chr_space /\ back_is_blank t = false)
  /\ (forall t, trim s = Some t ->
                to_integer wrap s radix = to_integer wrap t radix).
Proof.
  split.
  - intros t. split; [apply trim_some|].
    intros (n & post & -> & Hpost & Hne & Hhd & Hback).
    rewrite trim_leading.
    destruct t as [|c t]; [congruence|].
    simpl app. rewrite trim_trailing; [|exact Hhd|exact Hpost].
    now apply trim_fixed.
  - intros t. apply to_integer_trimmed.
Qed.

(** A decimal digit is no letter. *)
Lemma decimal_not_letter (chr : ascii) :
  valid_digit 10 chr -> chrlower chr = (-1)%Z.
Proof.
  intros [H0 H1]. apply Z.leb_le in H0. apply Z.ltb_lt in H1.
  destruct chr as [[] [] [] [] [] [] [] []];
    vm_compute in H0, H1; try discriminate; reflexivity.
Qed.

(** C5. Behind a leading [0], the letters x, o and b of either case select
    base 16, 8 and 2 and are consumed with the zero, and a lone [0] is zero.
    A decimal digit behind the zero is consumed with it as well and its
    value is lost: the digit loop starts behind it, so [012] reads as 2,
    [0123] as 23 and [05] as 0.  The digit is checked against base 10, not
    against the working base: [0a] fails in radix 16. *)
Theorem leading_zero_skips_next_digit :
  (forall radix rest,
      prefix radix (chr_zero :: "x"%char :: rest) = Next (16, rest) /\
      prefix radix (chr_zero :: "X"%char :: rest) = Next (16, rest) /\
      prefix radix (chr_zero :: "o"%char :: rest) = Next (8, rest) /\
      prefix radix (chr_zero :: "O"%char :: rest) = Next (8, rest) /\
      prefix radix (chr_zero :: "b"%char :: rest) = Next (2, rest) /\
      prefix radix (chr_zero :: "B"%char :: rest) = Next (2, rest))%Z
  /\ (forall radix, prefix radix [chr_zero] = Return (Some 0%Z))
  /\ (forall radix chr rest,
        valid_digit 10 chr ->
        prefix radix (chr_zero :: chr :: rest) = Next (radix, rest))
  /\ to_integer wrap_int (chars "012") 10 = Some 2%Z
  /\ to_integer wrap_int (chars "0123") 10 = Some 23%Z
  /\ to_integer wrap_int (chars "05") 10 = Some 0%Z
  /\ to_integer wrap_int (chars "0a") 16 = None
  /\ to_integer wrap_int (chars "a") 16 = Some 10%Z.
Proof.
  split; [intros; repeat split|].
  split; [reflexivity|].
  split.
  - intros radix chr rest H. unfold prefix.
    rewrite Ascii.eqb_refl, (decimal_not_letter H).
    rewrite (chrdigit_valid H). destruct H as [H _].
    apply Z.ltb_ge in H. now rewrite H.
  - repeat split; vm_compute; reflexivity.
Qed.

(** C6. The digit loop reads left to right as
    [result = result * base + digit] over the digits 0-9 and the letters up
    to 35, the minus sign negates the sum, and one character that is no
    digit of the base leaves no value; 42, -0x2A, 0b101 read as 42, -42, 5
    and 12a has no value in base 10. *)
Theorem to_integer_accumulates :
  (forall (wrap : Z -> Z) (base : Z) (ds : list ascii) (r : Z),
      (Forall (valid_digit base) ds ->
       accumulate wrap base ds r = Some (horner_from wrap base ds r))
      /\ (Exists (fun c => ~ valid_digit base c) ds ->
          accumulate wrap base ds r = None))
  /\ (forall (wrap : Z -> Z) (radix : Z) (c : ascii) (s : list ascii),
        c <> chr_zero -> Forall (valid_digit radix) (c :: s) ->
        to_integer wrap (c :: s) radix = Some (horner wrap radix (c :: s))
        /\ to_integer wrap (chr_minus :: c :: s) radix
           = Some (wrap (- horner wrap radix (c :: s)))%Z)
  /\ (forall (wrap : Z -> Z) (radix : Z) (c : ascii) (s : list ascii),
        c <> chr_space -> c <> chr_minus -> c <> chr_zero ->
        back_is_blank (c :: s) = false ->
        Exists (fun c => ~ valid_digit radix c) (c :: s) ->
        to_integer wrap (c :: s) radix = None
        /\ to_integer wrap (chr_minus :: c :: s) radix = None)
  /\ (forall (c : ascii) (base : Z),
        chrdigit c base
        = (if (0 <=? digit_value c) && (digit_value c <? base)
           then digit_value c else -1)
        /\ digit_value c <= 35)%Z
  /\ to_integer wrap_int (chars "42") 10 = Some 42%Z
  /\ to_integer wrap_int (chars "-0x2A") 10 = Some (-42)%Z
  /\ to_integer wrap_int (chars "0b101") 10 = Some 5%Z
  /\ to_integer wrap_int (chars "12a") 10 = None.
Proof.
  split.
  { intros wrap base ds r. split;
      [apply accumulate_valid|apply accumulate_invalid]. }
  split.
  { intros wrap radix c s Hz Hv.
    assert (Hb : back_is_blank (c :: s) = false)
      by (apply (valid_back (base := radix)); [discriminate|assumption]).
    inversion Hv as [|? ? Hc _]. subst.
    destruct (valid_digit_plain Hc) as (Hs & _ & Hm).
    rewrite to_integer_plain, to_integer_minus by assumption.
    rewrite (accumulate_valid wrap _ Hv). split; reflexivity. }
  split.
  { intros wrap radix c s Hs Hm Hz Hb He.
    rewrite to_integer_plain, to_integer_minus by assumption.
    rewrite (accumulate_invalid wrap _ He). split; reflexivity. }
  split.
  { intros c base. split; [apply chrdigit_value|apply digit_value_range]. }
  repeat split; vm_compute; reflexivity.
Qed.

(** C7. With an exponent marker, the text behind it is read by
    [to_integer] in radix 10; when that has no value the float has none,
    and otherwise the mantissa is multiplied by 10, or divided by 10, once
    for every unit of the exponent.  [-1.5e2] is -150, [3.14] is the binary64
    number nearest to 3.14, and [abc] has no value. *)
Theorem float_exponent_scaling :
  (forall (sign : bool) (c : ascii) (m : list ascii) (e : ascii)
          (x : list ascii),
      c <> chr_space -> c <> chr_minus ->
      chrlower c <> code "i" -> chrlower c <> code "n" ->
      Forall no_exp m -> chrlower e = code "e" ->
      back_is_blank (e :: x) = false ->
      to_floating_point
        ((if sign then [chr_minus] else []) ++ c :: m ++ e :: x) =
        match mantissa (c :: m) with
        | None => None
        | Some r =>
            match to_integer wrap_int x 10 with
            | None => None
            | Some k =>
                Some (if sign then (- scale r k)%float else scale r k)
            end
        end)
  /\ (forall r, scale r 0 = r)
  /\ (forall r k, (0 <= k)%Z -> scale r (k + 1) = (scale r k * 10)%float)
  /\ (forall r k, (k <= 0)%Z -> scale r (k - 1) = (scale r k / 10)%float)
  /\ to_floating_point (chars "-1.5e2") = Some (-150)%float
  /\ to_floating_point (chars "3.14") = Some 0x1.91eb851eb851fp+1%float
  /\ to_floating_point (chars "abc") = None
  /\ to_floating_point (chars "1.5ex") = None.
Proof.
  split; [exact with_exponent|].
  split; [exact scale_zero|].
  split; [exact scale_up|].
  split; [exact scale_down|].
  repeat split; vm_compute; reflexivity.
Qed.

(** C8. [find_field] returns the first field, in row-major order, that
    satisfies the predicate and [find_row] the first such row; without a
    match [find_field] returns the empty field and [find_row] a row of
    [columns()] empty fields.  Nothing but the value tells such a result
    from a match that is empty itself. *)
Theorem find_sentinels :
  (forall v p,
      find_field v p = match find p (concat (fields v)) with
                       | Some field => field
                       | None => []
                       end)
  /\ (forall v p,
        find_row v p = match find p (fields v) with
                       | Some row => Ok row
                       | None => bind (columns v)
                                   (fun n => Ok (repeat [] n))
                       end)
  /\ (forall v p n,
        columns v = Ok n -> find p (fields v) = None ->
        exists row,
          find_row v p = Ok row /\ length row = n
          /\ Forall (fun field => field = []) row)
  /\ (make (Header.value ++ line ",") = Some two_empty_fields
      /\ find (fun _ => true) (concat (fields two_empty_fields)) = Some []
      /\ find (fun _ => false) (concat (fields two_empty_fields)) = None
      /\ find_field two_empty_fields (fun _ => true)
         = find_field two_empty_fields (fun _ => false)
      /\ find (fun _ => true) (fields two_empty_fields) = Some [ []; [] ]
      /\ find (fun _ => false) (fields two_empty_fields) = None
      /\ find_row two_empty_fields (fun _ => true)
         = find_row two_empty_fields (fun _ => false)).
Proof.
  split.
  { intros v p. unfold find_field. now rewrite find_in_rows_concat. }
  split.
  { intros v p. unfold find_row. now rewrite find_in_grid_find. }
  split.
  { intros v p n Hn Hnone. unfold find_row.
    rewrite find_in_grid_find, Hnone, Hn. simpl.
    eexists. split; [reflexivity|]. split; [apply repeat_length|].
    apply Forall_forall. intros f Hf. now apply repeat_spec in Hf. }
  repeat split; vm_compute; reflexivity.
Qed.

(** C9. Looking a field up by column name scans the header record for the
    first field equal to the name and returns the element of the row at
    that index; when no header field is equal to the name the index ends
    up at the length of the row and the lookup leaves through
    [std::out_of_range]. *)
Theorem get_field_by_name (data : list ascii) (v : runtime_cppsv_view)
    (column_name : view_type) (row_index : nat) (row : list view_type) :
  make data = Some v -> get_row v row_index = Ok row ->
  exists header,
    index (fields v) 0 = Ok header /\ length row = length header
    /\ (forall k,
          nth_error header k = Some column_name ->
          (forall j, j < k -> nth_error header j <> Some column_name) ->
          name_index header column_name 0 = k
          /\ exists field,
               nth_error row k = Some field
               /\ get_field v column_name row_index = Ok field)
    /\ (~ In column_name header ->
        name_index header column_name 0 = length row
        /\ get_field v column_name row_index = OutOfRange).
Proof.
  unfold make. destruct (calc_fields data) as [g|] eqn:Hg; [|discriminate].
  intros [= <-]. unfold get_row, get_field, get_row, get_field_name, at_, index.
  cbn [fields]. destruct (nth_error g row_index) as [row'|] eqn:Hrow;
    [|discriminate].
  intros [= ->].
  destruct (calc_fields_shape _ Hg) as [x Hx].
  rewrite Forall_forall in Hx.
  destruct g as [|header g]; [now destruct row_index|].
  exists header. cbn [nth_error bind].
  assert (Hlen : length row = length header).
  { rewrite (Hx row) by (now apply nth_error_In in Hrow).
    symmetry. apply Hx. now left. }
  split; [reflexivity|]. split; [exact Hlen|]. split.
  - intros k Hk Hfirst.
    pose proof (@name_index_found header column_name k Hk Hfirst 0) as E.
    simpl in E. rewrite E. split; [reflexivity|].
    assert (Hlt : k < length row).
    { rewrite Hlen. apply nth_error_Some. congruence. }
    apply nth_error_Some in Hlt.
    destruct (nth_error row k) as [field|]; [|congruence].
    now exists field.
  - intros Hmiss.
    pose proof (@name_index_missing header column_name Hmiss 0) as E.
    simpl in E. rewrite E. split; [now rewrite Hlen|].
    replace (nth_error row (length header)) with (@None view_type);
      [reflexivity|].
    symmetry. apply nth_error_None. lia.
Qed.

(** C9 on the scenario table: column [City] of row 1. *)
Lemma get_field_by_name_witness :
  exists header,
    index (fields people_view) 0 = Ok header
    /\ length [chars "Alice"; chars "30"; chars "Paris"] = length header
    /\ (forall k,
          nth_error header k = Some (chars "City") ->
          (forall j, j < k -> nth_error header j <> Some (chars "City")) ->
          name_index header (chars "City") 0 = k
          /\ exists field,
               nth_error [chars "Alice"; chars "30"; chars "Paris"] k
               = Some field
               /\ get_field people_view (chars "City") 1 = Ok field)
    /\ (~ In (chars "City") header ->
        name_index header (chars "City") 0
        = length [chars "Alice"; chars "30"; chars "Paris"]
        /\ get_field people_view (chars "City") 1 = OutOfRange).
Proof.
  apply (@get_field_by_name people people_view (chars "City") 1
           [chars "Alice"; chars "30"; chars "Paris"]);
    vm_compute; reflexivity.
Defined.

(** C10. A range that is empty, holds blanks only, or is a lone minus sign
    between spaces in front and blanks behind has no value, neither as an
    integer nor as a floating point number. *)
Theorem degenerate_input_has_no_value (wrap : Z -> Z) (radix : Z)
    (s : list ascii) :
  s = [] \/ Forall blank s
  \/ (exists n post,
         s = repeat chr_space n ++ chr_minus :: post /\ Forall blank post) ->
  to_integer wrap s radix = None /\ to_floating_point s = None.
Proof.
  intros [-> | [H | (n & post & -> & H)]].
  - split; reflexivity.
  - unfold to_integer, to_floating_point. now rewrite (trim_blank H).
  - assert (Ht : trim (repeat chr_space n ++ chr_minus :: post)
                 = Some [chr_minus]).
    { rewrite trim_leading.
      change (chr_minus :: post) with (chr_minus :: [] ++ post).
      rewrite trim_trailing; [reflexivity|discriminate|exact H]. }
    unfold to_integer, to_floating_point. rewrite Ht. split; reflexivity.
Qed.

(** C10 on a minus sign between two spaces and one. *)
Lemma degenerate_input_witness :
  to_integer wrap_int (chars "  - ") 10 = None
  /\ to_floating_point (chars "  - ") = None.
Proof.
  apply (@degenerate_input_has_no_value wrap_int 10 (chars "  - ")).
  right. right. exists 2, [chr_space]. split; [reflexivity|].
  constructor; [now left|constructor].
Defined.


(** * Further properties of the code *)

Import Iterate Shapes.

(** ** The magic header *)

Lemma equal_prefix (r1 r2 : list ascii) :
  Header.equal r1 r2 = true <-> exists rest, r2 = r1 ++ rest.
Proof.
  revert r2. induction r1 as [|a r1 IH]; intros r2; simpl.
  - split; [intros _; now exists r2|reflexivity].
  - destruct r2 as [|b r2].
    + split; [discriminate|]. intros (rest & H). discriminate.
    + rewrite andb_true_iff, Ascii.eqb_eq, IH. split.
      * intros [-> (rest & ->)]. now exists rest.
      * intros (rest & [= -> ->]). split; [reflexivity|now exists rest].
Qed.

(** A text passes the header check exactly when it is the eight
    characters of the magic followed by anything, and then the body the
    tokenizer reads is what follows the magic. *)
Theorem has_header_iff (data : list ascii) :
  (Header.has_header data = true <->
   exists body, data = Header.value ++ body)
  /\ (forall body, data = Header.value ++ body ->
                   skipn Header.size data = body).
Proof.
  split.
  - unfold Header.has_header. rewrite andb_true_iff, equal_prefix. split.
    + now intros [_ H].
    + intros (body & ->). split; [|now exists body].
      apply Nat.leb_le. rewrite length_app. unfold Header.size. lia.
  - intros body ->. reflexivity.
Qed.

(** A text without the magic header gives a view without rows: the
    constructor succeeds, every row and field lookup leaves through
    [std::out_of_range], [find_field] finds nothing, and [columns()] and
    the sentinel of [find_row] read [fields[0]] of an empty vector. *)
Theorem no_header_gives_empty_view (data : list ascii) :
  Header.has_header data = false ->
  exists v,
    make data = Some v /\ rows v = 0 /\ columns v = Undefined
    /\ (forall i, get_row v i = OutOfRange)
    /\ (forall name i, get_field v name i = OutOfRange)
    /\ (forall c r, get_field_at v c r = OutOfRange)
    /\ (forall p, find_field v p = [])
    /\ (forall p, find_row v p = Undefined)
    /\ (forall (S : Type) (f : S -> view_type -> S) (s : S),
          for_each_field v f s = s).
Proof.
  intros H. unfold make, calc_fields. rewrite H. simpl.
  eexists. split; [reflexivity|].
  repeat split; intros; unfold get_row, get_field, get_row, get_field_at, at_;
    simpl; now rewrite ?nth_error_nil.
Qed.

(** The statement above, on a text that lacks the magic. *)
Lemma no_header_witness :
  exists v,
    make (line "a,b") = Some v /\ rows v = 0 /\ columns v = Undefined
    /\ (forall i, get_row v i = OutOfRange)
    /\ (forall name i, get_field v name i = OutOfRange)
    /\ (forall c r, get_field_at v c r = OutOfRange)
    /\ (forall p, find_field v p = [])
    /\ (forall p, find_row v p = Undefined)
    /\ (forall (S : Type) (f : S -> view_type -> S) (s : S),
          for_each_field v f s = s).
Proof.
  apply (@no_header_gives_empty_view (line "a,b")). reflexivity.
Defined.

(** ** Dimensions and bounds *)

Lemma calc_x_loop_ge (data : list ascii) :
  forall q out, out <= calc_x_loop data q out.
Proof.
  induction data as [|c data IH]; intros q out; simpl; [lia|].
  destruct (xorb q (Ascii.eqb c chr_quote)); [apply IH|].
  destruct (Ascii.eqb c chr_comma), (Ascii.eqb c chr_nl);
    try lia; (etransitivity; [|apply IH]); lia.
Qed.

Lemma calc_fields_dimensions (body : list ascii) (g : grid) :
  calc_fields (Header.value ++ body) = Some g ->
  length g = calc_y body (calc_x body)
  /\ Forall (fun row => length row = calc_x body) g.
Proof.
  unfold calc_fields. rewrite has_header_value. simpl negb. cbv iota.
  replace (skipn Header.size (Header.value ++ body)) with body
    by reflexivity.
  intros H. apply scan_shape in H.
  - simpl in H. now rewrite repeat_length in H.
  - simpl. apply Forall_forall. intros row Hrow.
    apply repeat_spec in Hrow. subst row. apply repeat_length.
Qed.

Lemma make_cells (body : list ascii) (v : runtime_cppsv_view) :
  make (Header.value ++ body) = Some v ->
  length (concat (fields v)) = rows v * calc_x body.
Proof.
  unfold make.
  destruct (calc_fields (Header.value ++ body)) as [g|] eqn:Hg;
    [|discriminate].
  intros [= <-]. destruct (calc_fields_dimensions _ Hg) as [_ Hf].
  unfold rows. cbn [fields]. clear Hg.
  induction Hf as [|row g Hrow _ IH]; [reflexivity|].
  simpl. rewrite length_app, IH, Hrow. lia.
Qed.

(** The view of a text with the magic header has as many rows as
    [calc_y] counts and every row has as many fields as [calc_x] counts,
    which is at least one. *)
Theorem view_dimensions (body : list ascii) (v : runtime_cppsv_view) :
  make (Header.value ++ body) = Some v ->
  rows v = calc_y body (calc_x body)
  /\ Forall (fun row => length row = calc_x body) (fields v)
  /\ 1 <= calc_x body
  /\ (1 <= rows v -> columns v = Ok (calc_x body))
  /\ length (concat (fields v)) = rows v * calc_x body.
Proof.
  intros Hv. pose proof (make_cells _ Hv) as Hcells. revert Hv Hcells.
  unfold make.
  destruct (calc_fields (Header.value ++ body)) as [g|] eqn:Hg;
    [|discriminate].
  intros [= <-]. destruct (calc_fields_dimensions _ Hg) as [Hl Hf].
  unfold rows, columns. cbn [fields]. intros Hcells.
  split; [exact Hl|]. split; [exact Hf|].
  split; [apply calc_x_loop_ge|]. split; [|exact Hcells].
  destruct g as [|row g]; [simpl; lia|]. intros _. simpl.
  inversion Hf. now f_equal.
Qed.

(** The statement above, on the scenario table. *)
Lemma view_dimensions_witness :
  rows people_view = calc_y (skipn Header.size people)
                       (calc_x (skipn Header.size people))
  /\ Forall (fun row => length row = calc_x (skipn Header.size people))
       (fields people_view)
  /\ 1 <= calc_x (skipn Header.size people)
  /\ (1 <= rows people_view ->
      columns people_view = Ok (calc_x (skipn Header.size people)))
  /\ length (concat (fields people_view))
     = rows people_view * calc_x (skipn Header.size people).
Proof.
  apply (@view_dimensions (skipn Header.size people) people_view).
  vm_compute. reflexivity.
Defined.

(** On a view the constructor built, [get_field(column_index, row_index)]
    returns a field exactly when the row index is below [rows()] and the
    column index below the length of the rows; otherwise it leaves through
    [std::out_of_range], and it never reads outside the grid. *)
Theorem get_field_at_bounds (data : list ascii) (v : runtime_cppsv_view)
    (column_index row_index : nat) :
  make data = Some v ->
  exists x,
    Forall (fun row => length row = x) (fields v)
    /\ (row_index < rows v -> column_index < x ->
        exists row field,
          get_row v row_index = Ok row
          /\ nth_error row column_index = Some field
          /\ get_field_at v column_index row_index = Ok field
          /\ get_field_index row column_index = Ok field)
    /\ (rows v <= row_index \/ x <= column_index ->
        get_field_at v column_index row_index = OutOfRange).
Proof.
  unfold make. destruct (calc_fields data) as [g|] eqn:Hg; [|discriminate].
  intros [= <-]. destruct (calc_fields_shape _ Hg) as [x Hx].
  exists x. cbn [fields]. split; [exact Hx|].
  unfold rows, get_row, get_field_at, get_field_index, at_. cbn [fields].
  rewrite Forall_forall in Hx. split.
  - intros Hr Hc. apply nth_error_Some in Hr.
    destruct (nth_error g row_index) as [row|] eqn:Hrow; [|congruence].
    assert (Hlen : length row = x) by (apply Hx; now apply nth_error_In in Hrow).
    rewrite <- Hlen in Hc. apply nth_error_Some in Hc.
    destruct (nth_error row column_index) as [field|] eqn:Hf; [|congruence].
    exists row, field. simpl. now rewrite Hf.
  - intros [Hr|Hc].
    + apply nth_error_None in Hr. now rewrite Hr.
    + destruct (nth_error g row_index) as [row|] eqn:Hrow; [|reflexivity].
      simpl.
      assert (Hlen : length row = x) by (apply Hx; now apply nth_error_In in Hrow).
      rewrite <- Hlen in Hc. apply nth_error_None in Hc. now rewrite Hc.
Qed.

(** The statement above, on the scenario table, column 2 of row 1. *)
Lemma get_field_at_bounds_witness :
  exists x,
    Forall (fun row => length row = x) (fields people_view)
    /\ (1 < rows people_view -> 2 < x ->
        exists row field,
          get_row people_view 1 = Ok row
          /\ nth_error row 2 = Some field
          /\ get_field_at people_view 2 1 = Ok field
          /\ get_field_index row 2 = Ok field)
    /\ (rows people_view <= 1 \/ x <= 2 ->
        get_field_at people_view 2 1 = OutOfRange).
Proof.
  apply (@get_field_at_bounds people people_view 2 1).
  vm_compute. reflexivity.
Defined.

Lemma name_index_hit (header : list view_type) (name : view_type) :
  In name header ->
  forall i, exists k,
    name_index header name i = i + k /\ nth_error header k = Some name.
Proof.
  induction header as [|f header IH]; intros Hin i; [contradiction|].
  simpl. unfold view_eqb.
  destruct (list_eq_dec ascii_dec f name) as [->|Hne].
  - exists 0. split; [lia|reflexivity].
  - destruct Hin as [Hin|Hin]; [congruence|].
    destruct (IH Hin (S i)) as (k & Hk & Hnth).
    exists (S k). split; [lia|exact Hnth].
Qed.

(** Looking up, in the header record itself, a name the header holds
    returns that name; in any other row it returns a field of that row
    whenever the row is as long as the header. *)
Theorem header_lookup_returns_name (v : runtime_cppsv_view)
    (header : list view_type) (column_name : view_type) :
  index (fields v) 0 = Ok header -> In column_name header ->
  get_field v column_name 0 = Ok column_name
  /\ (forall row_index row,
        get_row v row_index = Ok row -> length row = length header ->
        exists field,
          In field row /\ get_field v column_name row_index = Ok field).
Proof.
  unfold index, get_field, get_row, get_field_name, at_, index.
  destruct (fields v) as [|h g] eqn:Hf; [discriminate|].
  simpl nth_error. intros [= ->] Hin.
  destruct (@name_index_hit header column_name Hin 0) as (k & Hk & Hnth).
  simpl in Hk.
  split.
  - simpl. now rewrite Hk, Hnth.
  - intros row_index row Hrow Hlen.
    destruct (nth_error (header :: g) row_index) as [row'|]; [|discriminate].
    injection Hrow as ->. simpl. rewrite Hk.
    assert (Hlt : k < length row).
    { rewrite Hlen. apply nth_error_Some. congruence. }
    apply nth_error_Some in Hlt.
    destruct (nth_error row k) as [field|] eqn:Hfield; [|congruence].
    exists field. split; [now apply nth_error_In in Hfield|reflexivity].
Qed.

(** The statement above, on column [Age] of the scenario table. *)
Lemma header_lookup_witness :
  get_field people_view (chars "Age") 0 = Ok (chars "Age")
  /\ (forall row_index row,
        get_row people_view row_index = Ok row ->
        length row = length [chars "Name"; chars "Age"; chars "City"] ->
        exists field,
          In field row
          /\ get_field people_view (chars "Age") row_index = Ok field).
Proof.
  apply (@header_lookup_returns_name people_view
           [chars "Name"; chars "Age"; chars "City"] (chars "Age")).
  - reflexivity.
  - right. left. reflexivity.
Defined.

(** ** Iteration *)

Lemma fold_rows_concat (S : Type) (function : S -> view_type -> S)
    (g : grid) :
  forall s,
    fold_left (fun s row => fold_left function row s) g s
    = fold_left function (concat g) s.
Proof.
  induction g as [|row g IH]; intros s; simpl; [reflexivity|].
  now rewrite fold_left_app, IH.
Qed.

(** [for_each_field] calls the function once for every cell, in row-major
    order: on a view the constructor built from a text with the magic
    header that is [rows()] times the column count calls, and the fields
    it passes are, in order, the ones [find_field] tests. *)
Theorem for_each_field_visits_all (body : list ascii)
    (v : runtime_cppsv_view) :
  make (Header.value ++ body) = Some v ->
  (forall (S : Type) (function : S -> view_type -> S) (s : S),
      for_each_field v function s
      = fold_left function (concat (fields v)) s)
  /\ for_each_field v (fun n _ => S n) 0 = rows v * calc_x body
  /\ for_each_row v (fun n _ => S n) 0 = rows v
  /\ (forall p,
        find_field v p
        = match for_each_field v
                  (fun found field =>
                     match found with
                     | Some _ => found
                     | None => if p field then Some field else None
                     end) None
          with
          | Some field => field
          | None => []
          end).
Proof.
  intros Hv.
  assert (Hcount : forall (A : Type) (l : list A) n,
             fold_left (fun n _ => S n) l n = n + length l).
  { intros A l. induction l as [|a l IH]; intros n; simpl; [lia|].
    rewrite IH. lia. }
  split; [intros; apply fold_rows_concat|].
  split.
  { unfold for_each_field. rewrite fold_rows_concat, Hcount.
    now rewrite (make_cells _ Hv). }
  split.
  { unfold for_each_row, rows. now rewrite Hcount. }
  intros p. unfold for_each_field, find_field.
  rewrite fold_rows_concat, find_in_rows_concat.
  generalize (concat (fields v)) as l. intros l.
  induction l as [|f l IH]; simpl; [reflexivity|].
  destruct (p f); [|exact IH].
  clear IH. induction l as [|f' l IH]; simpl; [reflexivity|exact IH].
Qed.

(** The statement above, on the scenario table. *)
Lemma for_each_field_witness :
  (forall (S : Type) (function : S -> view_type -> S) (s : S),
      for_each_field people_view function s
      = fold_left function (concat (fields people_view)) s)
  /\ for_each_field people_view (fun n _ => S n) 0
     = rows people_view * calc_x (skipn Header.size people)
  /\ for_each_row people_view (fun n _ => S n) 0 = rows people_view
  /\ (forall p,
        find_field people_view p
        = match for_each_field people_view
                  (fun found field =>
                     match found with
                     | Some _ => found
                     | None => if p field then Some field else None
                     end) None
          with
          | Some field => field
          | None => []
          end).
Proof.
  apply (@for_each_field_visits_all (skipn Header.size people) people_view).
  vm_compute. reflexivity.
Defined.

(** ** to_integer, further *)

Section Radix.
Variable wrap : Z -> Z.
Local Open Scope Z_scope.

Lemma prefix_letter_lower (p : ascii) (base : Z) :
  prefix_letter p base ->
  prefix 10 (chr_zero :: p :: []) = Next (base, [])
  /\ p <> chr_space /\ p <> chr_nul.
Proof. intros []; repeat split; discriminate. Qed.

Lemma prefix_letter_prefix (p : ascii) (base radix : Z) (ds : list ascii) :
  prefix_letter p base -> prefix radix (chr_zero :: p :: ds) = Next (base, ds).
Proof. now intros []. Qed.

(** Behind [0x], [0o] or [0b] (either case) the digits are read in base
    16, 8 or 2 whatever radix the caller passes, a minus sign in front
    negates, and the prefix alone, without any digit, reads as zero. *)
Theorem prefix_overrides_radix (p : ascii) (base radix : Z)
    (ds : list ascii) :
  prefix_letter p base -> Forall (valid_digit base) ds ->
  to_integer wrap (chr_zero :: p :: ds) radix = Some (horner wrap base ds)
  /\ to_integer wrap (chr_minus :: chr_zero :: p :: ds) radix
     = Some (wrap (- horner wrap base ds))
  /\ to_integer wrap [chr_zero; p] radix = Some 0.
Proof.
  intros Hp Hds.
  assert (Hback : forall pre, back_is_blank (pre ++ p :: ds) = false).
  { intros pre. destruct ds as [|d ds'].
    - rewrite back_is_blank_app.
      destruct (prefix_letter_lower Hp) as (_ & H1 & H2).
      apply Ascii.eqb_neq in H1, H2. now rewrite H1, H2.
    - replace (pre ++ p :: d :: ds') with ((pre ++ [p]) ++ d :: ds')
        by (now rewrite <- app_assoc).
      assert (Hne : d :: ds' <> []) by discriminate.
      destruct (exists_last Hne) as (s0 & b & Heq). rewrite Heq in *.
      rewrite app_assoc, back_is_blank_app.
      apply Forall_app in Hds as [_ Hb]. inversion_clear Hb as [|? ? Hb' _].
      destruct (valid_digit_plain Hb') as (H1 & H2 & _).
      apply Ascii.eqb_neq in H1, H2. now rewrite H1, H2. }
  assert (Hmain : forall ds', Forall (valid_digit base) ds' ->
            (forall pre, back_is_blank (pre ++ p :: ds') = false) ->
            to_integer wrap (chr_zero :: p :: ds') radix
            = Some (horner wrap base ds')
            /\ to_integer wrap (chr_minus :: chr_zero :: p :: ds') radix
               = Some (wrap (- horner wrap base ds'))).
  { intros ds' Hds' Hb'. unfold to_integer.
    rewrite !trim_fixed;
      try discriminate;
      [| exact (Hb' [chr_minus; chr_zero]) | exact (Hb' [chr_zero]) ].
    unfold take_sign. simpl hd. simpl tl.
    replace (Ascii.eqb chr_zero chr_minus) with false by reflexivity.
    rewrite Ascii.eqb_refl.
    rewrite (prefix_letter_prefix radix ds' Hp).
    rewrite (accumulate_valid wrap _ Hds'). now split. }
  destruct (Hmain ds Hds Hback) as [H1 H2].
  split; [exact H1|]. split; [exact H2|].
  destruct (Hmain [] (Forall_nil _)) as [H3 _]; [|exact H3].
  intros pre. rewrite back_is_blank_app.
  destruct (prefix_letter_lower Hp) as (_ & Ha & Hb).
  apply Ascii.eqb_neq in Ha, Hb. now rewrite Ha, Hb.
Qed.

End Radix.

(** The statement above, on [0XfF] read with radix 10. *)
Lemma prefix_overrides_radix_witness :
  to_integer wrap_int (chars "0XfF") 10
  = Some (horner wrap_int 16 (chars "fF"))
  /\ to_integer wrap_int (chars "-0XfF") 10
     = Some (wrap_int (- horner wrap_int 16 (chars "fF")))
  /\ to_integer wrap_int (chars "0X") 10 = Some 0%Z.
Proof.
  apply (@prefix_overrides_radix wrap_int "X"%char 16 10 (chars "fF")).
  - constructor.
  - repeat constructor; vm_compute; discriminate.
Defined.

Lemma trim_keeps_head (c : ascii) (s : list ascii) :
  ~ blank c -> exists s', trim (c :: s) = Some (c :: s').
Proof.
  intros Hc.
  assert (Hs : Ascii.eqb c chr_space = false)
    by (apply Ascii.eqb_neq; intros ->; apply Hc; now left).
  induction s as [|b s IH] using rev_ind.
  - exists []. rewrite trim_cons, Hs.
    change [c] with ([] ++ [c]). rewrite back_is_blank_app.
    destruct (Ascii.eqb c chr_space || Ascii.eqb c chr_nul) eqn:E;
      [|reflexivity].
    exfalso. now apply Hc, blank_eqb.
  - rewrite trim_cons, Hs.
    change (c :: s ++ [b]) with ((c :: s) ++ [b]).
    rewrite back_is_blank_app, removelast_last.
    destruct (Ascii.eqb b chr_space || Ascii.eqb b chr_nul);
      [exact IH|]. now exists (s ++ [b]).
Qed.

(** Text whose first character behind the leading spaces is neither a
    minus sign nor a digit of the radix has no integer value, whatever
    follows: a plus sign, in particular, is never accepted. *)
Theorem to_integer_rejects_bad_start (wrap : Z -> Z) (radix : Z) (n : nat)
    (c : ascii) (s : list ascii) :
  ~ blank c -> c <> chr_minus -> c <> chr_zero -> ~ valid_digit radix c ->
  to_integer wrap (repeat chr_space n ++ c :: s) radix = None.
Proof.
  intros Hb Hm Hz Hd. unfold to_integer. rewrite trim_leading.
  destruct (trim_keeps_head s Hb) as (s' & ->).
  unfold take_sign. simpl hd.
  apply Ascii.eqb_neq in Hm, Hz. rewrite Hm. unfold prefix. rewrite Hz.
  simpl. now rewrite (chrdigit_invalid Hd).
Qed.

(** The statement above, on [ +5]. *)
Lemma to_integer_rejects_plus :
  to_integer wrap_int (chars " +5") 10 = None.
Proof.
  apply (@to_integer_rejects_bad_start wrap_int 10 1 chr_plus (chars "5")).
  - intros [H|H]; discriminate.
  - discriminate.
  - discriminate.
  - intros [H _]. now apply H.
Defined.

(** The same for [to_floating_point]: a first character that is neither a
    minus sign, a decimal digit, a point nor one of i, I, n, N leaves no
    value. *)
Theorem to_floating_point_rejects_bad_start (n : nat) (c : ascii)
    (s : list ascii) :
  ~ blank c -> c <> chr_minus -> c <> chr_dot -> ~ dec c ->
  chrlower c <> code "i" -> chrlower c <> code "n" ->
  to_floating_point (repeat chr_space n ++ c :: s) = None.
Proof.
  intros Hb Hm Hdot Hd Hi Hn. unfold to_floating_point.
  rewrite trim_leading.
  destruct (trim_keeps_head s Hb) as (s' & ->).
  unfold take_sign. simpl hd.
  apply Ascii.eqb_neq in Hm, Hdot. rewrite Hm. simpl hd.
  apply Z.eqb_neq in Hi, Hn. rewrite Hi, Hn. simpl orb. cbv iota.
  unfold find_exp. destruct (scan_exp s') as [a b].
  simpl. rewrite Hdot. now rewrite (chrdigit_invalid Hd).
Qed.

(** The statement above, on [+1.5]. *)
Lemma to_floating_point_rejects_plus :
  to_floating_point (chars "+1.5") = None.
Proof.
  apply (@to_floating_point_rejects_bad_start 0 chr_plus (chars "1.5")).
  - intros [H|H]; discriminate.
  - discriminate.
  - discriminate.
  - intros [H _]. now apply H.
  - discriminate.
  - discriminate.
Defined.

Lemma wrap_int_small (z : Z) :
  (- 2 ^ 31 <= z < 2 ^ 31)%Z -> wrap_int z = z.
Proof.
  intros H. unfold wrap_int. rewrite Z.mod_small; lia.
Qed.

Lemma horner_from_exact (ds : list ascii) :
  Forall dec ds ->
  forall r,
    (0 <= r)%Z ->
    ((r + 1) * 10 ^ Z.of_nat (length ds) <= 10 ^ 9)%Z ->
    horner_from wrap_int 10 ds r = horner_from (fun z => z) 10 ds r
    /\ (0 <= horner_from (fun z => z) 10 ds r
        < (r + 1) * 10 ^ Z.of_nat (length ds))%Z.
Proof.
  induction 1 as [|c ds Hc _ IH]; intros r Hr Hb.
  - simpl in *. split; [reflexivity|lia].
  - cbn [length] in Hb. rewrite Nat2Z.inj_succ, Z.pow_succ_r in Hb by lia.
    cbn [length]. rewrite Nat2Z.inj_succ, Z.pow_succ_r by lia.
    assert (Hp : (0 < 10 ^ Z.of_nat (length ds))%Z)
      by (apply Z.pow_pos_nonneg; lia).
    destruct Hc as [Hc0 Hc1].
    unfold horner_from in *. simpl fold_left.
    assert (Hsmall : (0 <= r * 10 + digit_value c < 2 ^ 31)%Z).
    { split; [lia|]. change (2 ^ 31)%Z with 2147483648%Z.
      change (10 ^ 9)%Z with 1000000000%Z in Hb. nia. }
    rewrite wrap_int_small by lia.
    destruct (IH (r * 10 + digit_value c)%Z) as [E B]; [lia|nia|].
    split; [exact E|]. split; [lia|nia].
Qed.

(** A decimal text of at most nine digits that does not start with a zero
    is read exactly: with [Integer = int] the result is the number the
    digits denote, negated behind a minus sign, and no step of the digit
    loop leaves the range of [int]. *)
Theorem nine_digits_are_exact (c : ascii) (s : list ascii) :
  c <> chr_zero -> Forall dec (c :: s) -> length (c :: s) <= 9 ->
  to_integer wrap_int (c :: s) 10
  = Some (horner (fun z => z) 10 (c :: s))
  /\ to_integer wrap_int (chr_minus :: c :: s) 10
     = Some (- horner (fun z => z) 10 (c :: s))%Z
  /\ (0 <= horner (fun z => z) 10 (c :: s) < 10 ^ 9)%Z.
Proof.
  intros Hz Hd Hl.
  assert (Hb : back_is_blank (c :: s) = false)
    by (apply (valid_back (base := 10%Z)); [discriminate|exact Hd]).
  inversion Hd as [|? ? Hc _]. subst.
  destruct (valid_digit_plain Hc) as (Hs & _ & Hm).
  rewrite to_integer_plain, to_integer_minus by assumption.
  rewrite (accumulate_valid wrap_int _ Hd). unfold horner. cbn [option_map].
  destruct (@horner_from_exact (c :: s) Hd 0%Z) as [E B]; [lia| |].
  { rewrite Z.mul_1_l. apply Z.pow_le_mono_r; lia. }
  rewrite E. split; [reflexivity|]. split.
  - rewrite wrap_int_small; [reflexivity|].
    change (2 ^ 31)%Z with 2147483648%Z.
    assert ((10 ^ Z.of_nat (length (c :: s)) <= 10 ^ 9)%Z)
      by (apply Z.pow_le_mono_r; lia).
    change (10 ^ 9)%Z with 1000000000%Z in *. lia.
  - assert ((10 ^ Z.of_nat (length (c :: s)) <= 10 ^ 9)%Z)
      by (apply Z.pow_le_mono_r; lia).
    lia.
Qed.

(** The statement above, on [123456789]. *)
Lemma nine_digits_witness :
  to_integer wrap_int (chars "123456789") 10
  = Some (horner (fun z => z) 10 (chars "123456789"))
  /\ to_integer wrap_int (chars "-123456789") 10
     = Some (- horner (fun z => z) 10 (chars "123456789"))%Z
  /\ (0 <= horner (fun z => z) 10 (chars "123456789") < 10 ^ 9)%Z.
Proof.
  apply (@nine_digits_are_exact "1"%char (chars "23456789")).
  - discriminate.
  - repeat constructor; vm_compute; discriminate.
  - simpl. lia.
Defined.

(** ** to_floating_point, further *)

Lemma code_inj (a b : ascii) : code a = code b -> a = b.
Proof.
  unfold code. intros H. apply N2Z.inj in H.
  rewrite <- (ascii_N_embedding a), <- (ascii_N_embedding b). now f_equal.
Qed.

Lemma code_range (a : ascii) : (0 <= code a < 256)%Z.
Proof.
  unfold code. pose proof (N_ascii_bounded a) as H. lia.
Qed.

Lemma lower_either (a b : ascii) :
  (97 <= code b <= 122)%Z ->
  (chrlower a =? code b)%Z = either_case a b.
Proof.
  intros Hb. apply eq_true_iff_eq.
  unfold either_case. rewrite orb_true_iff, !Z.eqb_eq, Ascii.eqb_eq.
  unfold chrlower.
  change (code "A") with 65%Z. change (code "Z") with 90%Z.
  change (code "a") with 97%Z. change (code "z") with 122%Z.
  pose proof (code_range a) as Ha.
  destruct (code a >=? 65)%Z eqn:E1, (code a <=? 90)%Z eqn:E2;
    destruct (code a >=? 97)%Z eqn:E3, (code a <=? 122)%Z eqn:E4;
    simpl;
    rewrite ?Z.geb_leb in *;
    rewrite ?Z.leb_le, ?Z.leb_gt in *;
    (split;
     [ intros H;
       first [ right; lia | left; apply code_inj; lia | exfalso; lia ]
     | intros [H|H]; [subst a|]; lia ]).
Qed.

Lemma equal_lower_is_word (lit : list ascii) :
  Forall (fun b => 97 <= code b <= 122)%Z lit ->
  forall s, equal_lower s lit = is_word s lit.
Proof.
  induction 1 as [|b lit Hb _ IH]; intros [|a s]; simpl; try reflexivity.
  rewrite IH. now rewrite lower_either by exact Hb.
Qed.

Lemma lowercase_literals :
  Forall (fun b => 97 <= code b <= 122)%Z fp_infinity
  /\ Forall (fun b => 97 <= code b <= 122)%Z fp_inf
  /\ Forall (fun b => 97 <= code b <= 122)%Z fp_nan.
Proof.
  repeat split; repeat constructor; vm_compute; discriminate.
Qed.

(** Text that starts, behind an optional minus sign, with i, I, n or N is
    a floating point number only when it spells [infinity], [inf] or
    [nan] in any mix of cases: the first two give infinity, the third
    not-a-number, negated behind the minus sign, and anything else leaves
    no value. *)
Theorem special_values (sign : bool) (c : ascii) (rest : list ascii) :
  either_case c "i" = true \/ either_case c "n" = true ->
  back_is_blank (c :: rest) = false ->
  to_floating_point ((if sign then [chr_minus] else []) ++ c :: rest) =
    if is_word (c :: rest) fp_infinity || is_word (c :: rest) fp_inf
    then Some (if sign then neg_infinity else infinity)
    else if is_word (c :: rest) fp_nan
         then Some (if sign then (- nan)%float else nan)
         else None.
Proof.
  intros Hc Hb.
  destruct lowercase_literals as (L1 & L2 & L3).
  assert (Hl : (chrlower c =? code "i")%Z || (chrlower c =? code "n")%Z
               = true).
  { rewrite !lower_either by (vm_compute; split; discriminate).
    now apply orb_true_iff. }
  assert (Hplain : c <> chr_space /\ c <> chr_minus).
  { split; intros ->; destruct Hc as [H|H]; discriminate. }
  destruct Hplain as [Hs Hm].
  unfold to_floating_point.
  assert (Hbb : back_is_blank
            ((if sign then [chr_minus] else []) ++ c :: rest) = false)
    by (now rewrite back_is_blank_behind).
  rewrite trim_fixed; [| now destruct sign | now destruct sign | exact Hbb].
  assert (Hts : take_sign float
            ((if sign then [chr_minus] else []) ++ c :: rest)
          = Next (sign, c :: rest)).
  { destruct sign; unfold take_sign; simpl; [reflexivity|].
    apply Ascii.eqb_neq in Hm. now rewrite Hm. }
  rewrite Hts. simpl hd. rewrite Hl. cbv iota.
  unfold check_fp_constants.
  rewrite (equal_lower_is_word L1), (equal_lower_is_word L2),
    (equal_lower_is_word L3).
  destruct (is_word (c :: rest) fp_infinity || is_word (c :: rest) fp_inf);
    [now destruct sign|].
  destruct (is_word (c :: rest) fp_nan); now destruct sign.
Qed.

(** The statement above, on [-InF]. *)
Lemma special_values_witness :
  to_floating_point (chars "-InF") =
    if is_word (chars "InF") fp_infinity || is_word (chars "InF") fp_inf
    then Some neg_infinity
    else if is_word (chars "InF") fp_nan
         then Some (- nan)%float
         else None.
Proof.
  apply (@special_values true "I"%char (chars "nF")).
  - left. reflexivity.
  - reflexivity.
Defined.

Lemma scan_exp_none (m : list ascii) :
  Forall no_exp m -> scan_exp m = (m, []).
Proof.
  induction 1 as [|d m Hd _ IH]; simpl; [reflexivity|].
  apply Z.eqb_neq in Hd. now rewrite Hd, IH.
Qed.

(** Without an exponent marker the float is the mantissa, negated behind
    a minus sign. *)
Lemma plain_float (sign : bool) (c : ascii) (m : list ascii) :
  c <> chr_space -> c <> chr_minus ->
  chrlower c <> code "i" -> chrlower c <> code "n" ->
  Forall no_exp m -> back_is_blank (c :: m) = false ->
  to_floating_point ((if sign then [chr_minus] else []) ++ c :: m) =
    option_map (fun r => if sign then (- r)%float else r) (mantissa (c :: m)).
Proof.
  intros Hs Hm Hi Hn Hno Hb. unfold to_floating_point.
  assert (Hbb : back_is_blank
            ((if sign then [chr_minus] else []) ++ c :: m) = false)
    by (now rewrite back_is_blank_behind).
  rewrite trim_fixed; [| now destruct sign | now destruct sign | exact Hbb].
  assert (Hts : take_sign float
            ((if sign then [chr_minus] else []) ++ c :: m)
          = Next (sign, c :: m)).
  { destruct sign; unfold take_sign; simpl; [reflexivity|].
    apply Ascii.eqb_neq in Hm. now rewrite Hm. }
  rewrite Hts. simpl hd.
  apply Z.eqb_neq in Hi, Hn. rewrite Hi, Hn. simpl orb. cbv iota.
  unfold find_exp. rewrite scan_exp_none by assumption.
  unfold mantissa.
  destruct (whole_part (c :: m) zero) as [[r rest]|]; [|reflexivity].
  now destruct (fraction_back (rev rest) zero).
Qed.

Lemma dec_dec (c : ascii) : dec c \/ ~ dec c.
Proof.
  unfold dec, valid_digit.
  destruct (Z_le_dec 0 (digit_value c)), (Z_lt_dec (digit_value c) 10);
    [left|right|right|right]; lia.
Qed.

Lemma dec_chrdigit (c : ascii) : dec c <-> (chrdigit c 10 <? 0)%Z = false.
Proof.
  split.
  - intros H. rewrite (chrdigit_valid H). apply Z.ltb_ge. apply H.
  - intros H. destruct (dec_dec c) as [Hd|Hd]; [exact Hd|].
    now rewrite (chrdigit_invalid Hd) in H.
Qed.

Lemma dec_not_dot (c : ascii) : dec c -> Ascii.eqb c chr_dot = false.
Proof.
  intros [H _]. apply Ascii.eqb_neq. intros ->. now apply H.
Qed.

Lemma whole_part_digits (w tail : list ascii) :
  Forall dec w ->
  forall r, exists r', whole_part (w ++ tail) r = whole_part tail r'.
Proof.
  induction 1 as [|c w Hc _ IH]; intros r; [now exists r|].
  simpl. rewrite (dec_not_dot Hc).
  apply dec_chrdigit in Hc. rewrite Hc. apply IH.
Qed.

Lemma whole_part_some (m : list ascii) :
  forall r r' rest,
    whole_part m r = Some (r', rest) ->
    exists w,
      Forall dec w /\ ((m = w /\ rest = []) \/ m = w ++ chr_dot :: rest).
Proof.
  induction m as [|c m IH]; intros r r' rest; simpl.
  - intros [= _ <-]. exists []. split; [constructor|now left].
  - destruct (Ascii.eqb c chr_dot) eqn:Hdot.
    + intros [= _ <-]. apply Ascii.eqb_eq in Hdot. subst c.
      exists []. split; [constructor|now right].
    + destruct (chrdigit c 10 <? 0)%Z eqn:Hd; [discriminate|].
      intros H. apply IH in H as (w & Hw & Hm).
      exists (c :: w). split; [constructor; [now apply dec_chrdigit|exact Hw]|].
      destruct Hm as [[-> ->]| ->]; [now left|now right].
Qed.

Lemma fraction_back_some (l : list ascii) :
  forall r, (exists d, fraction_back l r = Some d) <-> Forall dec l.
Proof.
  induction l as [|c l IH]; intros r; simpl.
  - split; [constructor|now exists r].
  - destruct (chrdigit c 10 <? 0)%Z eqn:Hd.
    + split; [intros (d & H); discriminate|].
      intros H. inversion_clear H as [|? ? Hc _].
      apply dec_chrdigit in Hc. congruence.
    + rewrite IH. split.
      * intros H. constructor; [now apply dec_chrdigit|exact H].
      * intros H. now inversion H.
Qed.

Lemma mantissa_accepts (m : list ascii) :
  (exists r, mantissa m = Some r) <-> decimal_syntax m.
Proof.
  unfold mantissa, decimal_syntax. split.
  - intros (r & H).
    destruct (whole_part m zero) as [[r0 rest]|] eqn:Hw; [|discriminate].
    destruct (fraction_back (rev rest) zero) as [d|] eqn:Hf; [|discriminate].
    apply whole_part_some in Hw as (w & Hdw & Hm).
    assert (Hrest : Forall dec rest).
    { rewrite <- (rev_involutive rest). apply Forall_rev.
      apply (fraction_back_some (rev rest) zero). now exists d. }
    exists w, rest. split; [exact Hdw|]. split; [exact Hrest|].
    destruct Hm as [[-> _]| ->]; [now left|now right].
  - intros (w & f & Hw & Hf & [-> | ->]).
    + destruct (whole_part_digits [] Hw zero) as (r' & E).
      rewrite app_nil_r in E. rewrite E. simpl. now eexists.
    + destruct (whole_part_digits (chr_dot :: f) Hw zero) as (r' & E).
      rewrite E. simpl.
      destruct (proj2 (fraction_back_some (rev f) zero) (Forall_rev Hf))
        as (d & ->).
      now eexists.
Qed.

(** Text without an exponent marker is a floating point number exactly
    when it is decimal digits, or digits, one point and digits, where
    either run of digits may be empty: [5.], [.5] and a lone point are all
    accepted, a second point or any other character is not. *)
Theorem decimal_text_accepted (sign : bool) (c : ascii) (m : list ascii) :
  c <> chr_space -> c <> chr_minus ->
  chrlower c <> code "i" -> chrlower c <> code "n" ->
  Forall no_exp m -> back_is_blank (c :: m) = false ->
  ((exists v,
       to_floating_point ((if sign then [chr_minus] else []) ++ c :: m)
       = Some v)
   <-> decimal_syntax (c :: m)).
Proof.
  intros Hs Hm Hi Hn Hno Hb.
  rewrite plain_float by assumption.
  rewrite <- mantissa_accepts. split.
  - intros (v & H). destruct (mantissa (c :: m)) as [r|]; [|discriminate].
    now exists r.
  - intros (r & ->). simpl. now eexists.
Qed.

(** The statement above, on a lone point. *)
Lemma decimal_text_witness :
  (exists v, to_floating_point [chr_dot] = Some v)
  <-> decimal_syntax [chr_dot].
Proof.
  apply (@decimal_text_accepted false chr_dot []).
  - discriminate.
  - discriminate.
  - discriminate.
  - discriminate.
  - constructor.
  - reflexivity.
Defined.

(** ** Stores outside the grid, short records, a missing last newline *)

Lemma calc_y_loop_newlines (s : list ascii) (x : nat) :
  forall q out idx,
    out + outside_newlines q s <= calc_y_loop s x q out idx.
Proof.
  induction s as [|c s IH]; intros q out idx; simpl; [lia|].
  destruct (xorb q (Ascii.eqb c chr_quote)); simpl; [apply IH|].
  destruct (Ascii.eqb c chr_comma && (idx <? x)), (Ascii.eqb c chr_nl);
    (etransitivity; [|apply IH]); lia.
Qed.

Lemma assign_defined (A : Type) (v : list A) (a : A) :
  forall i, i < length v -> exists v', assign v i a = Some v'.
Proof.
  induction v as [|b v IH]; intros [|i] Hi; simpl in *; try lia.
  - now eexists.
  - destruct (IH i) as (v' & ->); [lia|]. now eexists.
Qed.

Lemma store_defined (x : nat) (g : grid) (iy ix : nat) (field : view_type) :
  Forall (fun row => length row = x) g -> iy < length g -> ix < x ->
  exists g', store g iy ix field = Some g'.
Proof.
  intros Hg Hy Hx. unfold store.
  apply nth_error_Some in Hy.
  destruct (nth_error g iy) as [row|] eqn:Hrow; [|congruence].
  assert (Hl : length row = x).
  { rewrite Forall_forall in Hg. apply Hg. now apply nth_error_In in Hrow. }
  destruct (@assign_defined _ row field ix) as (row' & ->); [lia|].
  apply assign_defined. apply nth_error_Some. congruence.
Qed.

(** The scan loop stores inside the grid as long as the rows that are left
    outnumber the newlines that are left. *)
Lemma scan_defined (dv : list ascii) (x : nat) (rest : list ascii) :
  forall (first : nat) (st : scan_state),
    Forall (fun row => length row = x) (out st) ->
    index_y st + outside_newlines (in_quotes st) rest < length (out st) ->
    exists g, scan dv x rest first st = Some g.
Proof.
  induction rest as [|c rest IH]; intros first st Hg Hy; simpl.
  - now eexists.
  - simpl in Hy.
    destruct (xorb (in_quotes st) (Ascii.eqb c chr_quote)) eqn:Hq.
    + apply IH; simpl; [exact Hg|]. simpl in Hy. lia.
    + simpl in Hy.
      destruct ((Ascii.eqb c chr_comma || Ascii.eqb c chr_nl)
                && (index_x st <? x)) eqn:Hd.
      * apply andb_prop in Hd as [_ Hx]. apply Nat.ltb_lt in Hx.
        destruct (@store_defined x (out st) (index_y st) (index_x st)
                    (strip_field (slice dv (field_first st) first)))
          as (g1 & Hst); [exact Hg|lia|exact Hx|].
        rewrite Hst. simpl.
        destruct (store_shape _ _ _ Hst Hg) as [Hl Hf].
        destruct (Ascii.eqb c chr_nl); apply IH; simpl;
          try exact Hf; rewrite Hl; lia.
      * destruct (Ascii.eqb c chr_nl); apply IH; simpl;
          try exact Hg; lia.
Qed.

(** The constructor never stores outside the grid when the first record
    has a single column, however ragged the rest of the body is, and more
    generally whenever the row count exceeds the number of newlines that
    stand outside quotes. *)
Theorem single_column_is_safe (body : list ascii) :
  calc_x body = 1
  \/ outside_newlines false body < calc_y body (calc_x body) ->
  exists v, make (Header.value ++ body) = Some v
            /\ rows v = calc_y body (calc_x body).
Proof.
  intros H.
  assert (Hy : outside_newlines false body < calc_y body (calc_x body)).
  { destruct H as [H|H]; [|exact H]. rewrite H. unfold calc_y.
    rewrite Nat.div_1_r.
    pose proof (calc_y_loop_newlines body 1 false 1 0). lia. }
  clear H.
  set (x := calc_x body) in *. set (y := calc_y body x) in *.
  assert (Hshape : Forall (fun row : list view_type => length row = x)
                     (repeat (repeat [] x) y)).
  { apply Forall_forall. intros row Hrow.
    apply repeat_spec in Hrow. subst row. apply repeat_length. }
  destruct (@scan_defined body x body 0
              {| in_quotes := false; field_first := 0; index_x := 0;
                 index_y := 0; out := repeat (repeat [] x) y |})
    as (g & Hg).
  - exact Hshape.
  - simpl. now rewrite repeat_length.
  - assert (E : calc_fields (Header.value ++ body) = Some g).
    { unfold calc_fields. rewrite has_header_value. exact Hg. }
    unfold make. rewrite E. simpl. eexists. split; [reflexivity|].
    unfold rows. cbn [fields].
    apply scan_shape in Hg; [|exact Hshape].
    simpl in Hg. now rewrite repeat_length in Hg.
Qed.

(** The statement above, on a single-column header followed by a record
    with a comma in it. *)
Lemma single_column_is_safe_witness :
  exists v, make (Header.value ++ line "a" ++ line "b,c") = Some v
            /\ rows v = calc_y (line "a" ++ line "b,c")
                          (calc_x (line "a" ++ line "b,c")).
Proof.
  apply (@single_column_is_safe (line "a" ++ line "b,c")).
  left. reflexivity.
Defined.

Lemma commas_cons (f : list ascii) (fs : list (list ascii)) :
  commas (f :: fs) = f ++ chr_comma :: commas fs.
Proof. unfold commas. simpl. now rewrite <- app_assoc. Qed.

Lemma render_record_snoc (fs : list (list ascii)) (f : list ascii) :
  render_record (fs ++ [f]) = commas fs ++ f ++ [chr_nl].
Proof.
  induction fs as [|g fs IH]; [reflexivity|].
  rewrite commas_cons. simpl app. cbn [render_record]. rewrite IH.
  destruct (fs ++ [f]) eqn:E; [now destruct fs|].
  now rewrite <- app_assoc.
Qed.

Lemma calc_x_commas (fs : list (list ascii)) (rest : list ascii) :
  Forall field_ok fs ->
  forall out, calc_x_loop (commas fs ++ rest) false out
              = calc_x_loop rest false (out + length fs).
Proof.
  induction 1 as [|f fs Hf _ IH]; intros out.
  - simpl. now rewrite Nat.add_0_r.
  - rewrite commas_cons, <- app_assoc. rewrite calc_x_field by exact Hf.
    rewrite <- app_comm_cons. cbn [calc_x_loop].
    rewrite comma_not_quote. simpl xorb. cbv iota.
    replace (Ascii.eqb chr_comma chr_comma) with true by reflexivity.
    replace (Ascii.eqb chr_comma chr_nl) with false by reflexivity.
    rewrite IH. f_equal. simpl. lia.
Qed.

Lemma calc_y_commas (x : nat) (fs : list (list ascii)) (rest : list ascii) :
  Forall field_ok fs ->
  forall out idx, idx + length fs <= x ->
    calc_y_loop (commas fs ++ rest) x false out idx
    = calc_y_loop rest x false (out + length fs) (idx + length fs).
Proof.
  induction 1 as [|f fs Hf _ IH]; intros out idx Hx.
  - simpl. now rewrite !Nat.add_0_r.
  - rewrite commas_cons, <- app_assoc. rewrite calc_y_field by exact Hf.
    rewrite <- app_comm_cons. cbn [calc_y_loop].
    rewrite comma_not_quote. simpl xorb. cbv iota.
    replace (Ascii.eqb chr_comma chr_comma) with true by reflexivity.
    replace (Ascii.eqb chr_comma chr_nl) with false by reflexivity.
    simpl length in Hx.
    replace (idx <? x) with true by (symmetry; apply Nat.ltb_lt; lia).
    simpl andb. cbv iota beta.
    rewrite IH by lia. f_equal; simpl; lia.
Qed.

Lemma calc_y_short (x : nat) (recs : list (list (list ascii)))
    (rest : list ascii) :
  short_records x recs ->
  forall out, calc_y_loop (render recs ++ rest) x false out 0
              = calc_y_loop rest x false (out + cells recs) 0.
Proof.
  unfold cells.
  induction 1 as [|r recs [Hl Hr] _ IH]; intros out.
  - simpl. now rewrite Nat.add_0_r.
  - unfold render. simpl concat. fold (render recs). rewrite <- app_assoc.
    rewrite calc_y_record; try assumption.
    + rewrite IH. f_equal. rewrite length_app. lia.
    + intros ->. simpl in Hl. lia.
    + lia.
Qed.

(** The scan loop over fields that each end in a comma, with cells left
    for all of them. *)
Lemma scan_commas (dv : list ascii) (x : nat) (done later : grid) :
  forall (fs : list (list ascii)) (a : list ascii) (pf : list view_type)
         (b : list ascii) (k : nat),
    Forall field_ok fs ->
    dv = a ++ commas fs ++ b ->
    length pf + length fs + k = x ->
    scan dv x (commas fs ++ b) (length a)
      {| in_quotes := false; field_first := length a;
         index_x := length pf; index_y := length done;
         out := done ++ (pf ++ repeat [] (length fs + k)) :: later |}
    = scan dv x b (length (a ++ commas fs))
        {| in_quotes := false;
           field_first := length (a ++ commas fs);
           index_x := length (pf ++ map strip_field fs);
           index_y := length done;
           out := done ++ ((pf ++ map strip_field fs) ++ repeat [] k)
                    :: later |}.
Proof.
  induction fs as [|f fs IH]; intros a pf b k Hok Hdv Hx.
  - unfold commas. simpl. now rewrite !app_nil_r.
  - inversion_clear Hok as [|? ? Hf Hfs].
    rewrite commas_cons in *. rewrite <- app_assoc in *.
    rewrite scan_field by exact Hf.
    unfold with_quotes. cbn [in_quotes field_first index_x index_y out].
    rewrite <- app_comm_cons in *. cbn [length repeat Nat.add].
    erewrite scan_delim; cycle 1.
    + reflexivity.
    + now left.
    + simpl in *. lia.
    + simpl. rewrite Hdv at 1. rewrite slice_app. apply store_app.
    + cbn [in_quotes field_first index_x index_y out].
      replace (Ascii.eqb chr_comma chr_nl) with false by reflexivity.
      cbv iota.
      replace (S (length a + length f))
        with (length (a ++ f ++ [chr_comma]))
        by (rewrite !length_app; simpl; lia).
      replace (S (length pf)) with (length (pf ++ [strip_field f]))
        by (rewrite length_app; simpl; lia).
      replace (pf ++ strip_field f :: repeat [] (length fs + k))
        with ((pf ++ [strip_field f]) ++ repeat [] (length fs + k))
        by (now rewrite <- app_assoc).
      rewrite IH.
      * f_equal.
        -- now rewrite <- !app_assoc.
        -- f_equal.
           ++ now rewrite <- !app_assoc.
           ++ simpl map. now rewrite <- !app_assoc.
           ++ simpl map. now rewrite <- !app_assoc.
      * exact Hfs.
      * rewrite Hdv. now rewrite <- !app_assoc.
      * rewrite length_app. simpl in *. lia.
Qed.

Lemma padded_snoc (x : nat) (fs : list (list ascii)) (f : list ascii) :
  length fs + 1 <= x ->
  padded x (fs ++ [f])
  = map strip_field fs ++ strip_field f :: repeat [] (x - (length fs + 1)).
Proof.
  intros _. unfold padded. rewrite map_app, length_app. simpl.
  now rewrite <- app_assoc.
Qed.

(** The scan loop over one record of at most [x] fields, into a row that
    is still empty. *)
Lemma scan_short_record (dv : list ascii) (x : nat) (done later : grid)
    (fs : list (list ascii)) (f a b : list ascii) :
  Forall field_ok (fs ++ [f]) ->
  dv = a ++ render_record (fs ++ [f]) ++ b ->
  length fs + 1 <= x ->
  scan dv x (render_record (fs ++ [f]) ++ b) (length a)
    {| in_quotes := false; field_first := length a;
       index_x := 0; index_y := length done;
       out := done ++ repeat [] x :: later |}
  = scan dv x b (length (a ++ render_record (fs ++ [f])))
      {| in_quotes := false;
         field_first := length (a ++ render_record (fs ++ [f]));
         index_x := 0; index_y := S (length done);
         out := done ++ padded x (fs ++ [f]) :: later |}.
Proof.
  intros Hok Hdv Hx.
  apply Forall_app in Hok as [Hfs Hf]. inversion_clear Hf as [|? ? Hf' _].
  rewrite render_record_snoc in *. rewrite <- !app_assoc in *.
  pose proof (@scan_commas dv x done later fs a [] (f ++ [chr_nl] ++ b)
                (x - length fs) Hfs Hdv) as E.
  cbn [length app Nat.add] in E. unfold view_type in E.
  replace (length fs + (x - length fs)) with x in E by lia.
  etransitivity; [apply E; lia|]. clear E.
  rewrite scan_field by exact Hf'.
  unfold with_quotes. cbn [in_quotes field_first index_x index_y out].
  simpl app at 1.
  replace (x - length fs) with (S (x - (length fs + 1))) by lia.
  cbn [repeat].
  erewrite scan_delim; cycle 1.
  - reflexivity.
  - now right.
  - cbn [index_x]. rewrite length_map. lia.
  - cbn [out index_x index_y field_first].
    rewrite Hdv at 1. rewrite app_assoc.
    rewrite slice_app. apply store_app.
  - cbn [in_quotes field_first index_x index_y out].
    replace (Ascii.eqb chr_nl chr_nl) with true by reflexivity. cbv iota.
    rewrite padded_snoc by exact Hx.
    f_equal.
    + rewrite !length_app. simpl. lia.
    + f_equal. rewrite !length_app. simpl. lia.
Qed.

(** With no row left, the first delimiter of a record stores outside the
    grid. *)
Lemma scan_overruns (dv : list ascii) (x : nat) (r : list (list ascii))
    (b : list ascii) (first ff : nat) (g : grid) :
  Forall field_ok r -> r <> [] -> 0 < x ->
  scan dv x (render_record r ++ b) first
    {| in_quotes := false; field_first := ff;
       index_x := 0; index_y := length g; out := g |}
  = None.
Proof.
  intros Hok Hne Hx. destruct r as [|f r]; [congruence|].
  inversion_clear Hok as [|? ? Hf _].
  cbn [render_record]. rewrite <- app_assoc.
  rewrite scan_field by exact Hf.
  unfold with_quotes. cbn [in_quotes field_first index_x index_y out].
  rewrite <- app_comm_cons. cbn [scan].
  cbn [in_quotes field_first index_x index_y out].
  assert (Hst : forall v, store g (length g) 0 v = None).
  { intros v. unfold store.
    replace (nth_error g (length g)) with (@None (list view_type));
      [reflexivity|].
    symmetry. apply nth_error_None. lia. }
  apply Nat.ltb_lt in Hx.
  destruct r; simpl; rewrite Hx, Hst; reflexivity.
Qed.

Lemma scan_short_records (dv : list ascii) (x : nat) (b : list ascii) :
  forall (recs : list (list (list ascii))) (a : list ascii) (done : grid)
         (k : nat),
    short_records x recs -> length recs <= k ->
    dv = a ++ render recs ++ b ->
    scan dv x (render recs ++ b) (length a)
      {| in_quotes := false; field_first := length a;
         index_x := 0; index_y := length done;
         out := done ++ repeat (repeat [] x) k |}
    = scan dv x b (length (a ++ render recs))
        {| in_quotes := false; field_first := length (a ++ render recs);
           index_x := 0; index_y := length (done ++ map (padded x) recs);
           out := (done ++ map (padded x) recs)
                  ++ repeat (repeat [] x) (k - length recs) |}.
Proof.
  induction recs as [|r recs IH]; intros a done k H Hk Hdv.
  - unfold render. simpl. now rewrite !app_nil_r, Nat.sub_0_r.
  - inversion_clear H as [|? ? [Hl Hr] Hrest].
    destruct k as [|k]; [simpl in Hk; lia|].
    unfold render in *. simpl concat in *. fold (render recs) in *.
    rewrite <- app_assoc in *.
    assert (Hne : r <> []) by (intros ->; simpl in Hl; lia).
    destruct (exists_last Hne) as (fs & f & ->).
    rewrite length_app in Hl. simpl in Hl.
    pose proof (@scan_short_record dv x done (repeat (repeat [] x) k)
                  fs f a (render recs ++ b) Hr Hdv) as E.
    etransitivity; [apply E; lia|]. clear E.
    replace (S (length done))
      with (length (done ++ [padded x (fs ++ [f])]))
      by (rewrite length_app; simpl; lia).
    replace (done ++ padded x (fs ++ [f]) :: repeat (repeat [] x) k)
      with ((done ++ [padded x (fs ++ [f])]) ++ repeat (repeat [] x) k)
      by (now rewrite <- app_assoc).
    rewrite IH.
    + simpl map. simpl length. f_equal.
      * now rewrite <- !app_assoc.
      * f_equal.
        -- now rewrite <- !app_assoc.
        -- now rewrite <- !app_assoc.
        -- now rewrite <- !app_assoc.
    + exact Hrest.
    + simpl in Hk. lia.
    + rewrite Hdv. now rewrite <- !app_assoc.
Qed.

Lemma scan_short_overruns (dv : list ascii) (x : nat) :
  forall (recs : list (list (list ascii))) (a : list ascii) (done : grid)
         (k : nat),
    short_records x recs -> k < length recs -> 0 < x ->
    dv = a ++ render recs ->
    scan dv x (render recs) (length a)
      {| in_quotes := false; field_first := length a;
         index_x := 0; index_y := length done;
         out := done ++ repeat (repeat [] x) k |}
    = None.
Proof.
  intros recs a done k H Hk Hx Hdv.
  rewrite <- (firstn_skipn k recs) in Hdv, H |- *.
  apply Forall_app in H as [H1 H2].
  assert (Hl : length (firstn k recs) = k)
    by (apply firstn_length_le; lia).
  destruct (skipn k recs) as [|r rest] eqn:Hs.
  { apply (f_equal (@length _)) in Hs. rewrite length_skipn in Hs.
    simpl in Hs. lia. }
  unfold render in *. rewrite map_app, concat_app in *.
  fold (render (firstn k recs)) in *. simpl concat in *.
  pose proof (@scan_short_records dv x (render_record r ++ concat (map render_record rest))
                (firstn k recs) a done k H1) as E.
  etransitivity; [apply E; [lia|exact Hdv]|]. clear E.
  rewrite Hl, Nat.sub_diag. simpl repeat. rewrite app_nil_r.
  inversion_clear H2 as [|? ? [Hlr Hr] _].
  apply scan_overruns; [exact Hr| |exact Hx].
  intros ->. simpl in Hlr. lia.
Qed.

Lemma calc_fields_unfold (body : list ascii) :
  calc_fields (Header.value ++ body)
  = scan body (calc_x body) body 0
      {| in_quotes := false; field_first := 0; index_x := 0; index_y := 0;
         out := repeat (repeat [] (calc_x body))
                  (calc_y body (calc_x body)) |}.
Proof.
  unfold calc_fields. now rewrite has_header_value.
Qed.

(** Records that are shorter than the first one.  Every record fills the
    front of its own row and the rest of that row stays empty; the row
    count is one plus the number of all fields, divided by the column
    count, and when that is less than the number of records the scan
    stores outside the grid. *)
Theorem short_records_pad_or_overrun (x : nat) (r0 : list (list ascii))
    (recs : list (list (list ascii))) :
  short_records x (r0 :: recs) -> length r0 = x ->
  calc_x (render (r0 :: recs)) = x
  /\ calc_y (render (r0 :: recs)) x = (1 + cells (r0 :: recs)) / x
  /\ (length (r0 :: recs) <= (1 + cells (r0 :: recs)) / x ->
      calc_fields (Header.value ++ render (r0 :: recs))
      = Some (map (padded x) (r0 :: recs)
              ++ repeat (repeat [] x)
                   ((1 + cells (r0 :: recs)) / x - length (r0 :: recs))))
  /\ ((1 + cells (r0 :: recs)) / x < length (r0 :: recs) ->
      calc_fields (Header.value ++ render (r0 :: recs)) = None).
Proof.
  intros H Hl0.
  assert (Hx : calc_x (render (r0 :: recs)) = x).
  { inversion_clear H as [|? ? [Hl Hr] _].
    unfold calc_x, render. simpl concat.
    rewrite calc_x_record; [lia|exact Hr|].
    intros ->. simpl in Hl. lia. }
  assert (Hy : calc_y (render (r0 :: recs)) x = (1 + cells (r0 :: recs)) / x).
  { unfold calc_y.
    rewrite <- (app_nil_r (render (r0 :: recs))).
    now rewrite (calc_y_short [] H). }
  assert (Hpos : 0 < x).
  { inversion_clear H as [|? ? [Hl Hr] _]. lia. }
  split; [exact Hx|]. split; [exact Hy|].
  rewrite calc_fields_unfold, Hx, Hy. split.
  - intros Hk.
    pose proof (@scan_short_records (render (r0 :: recs)) x [] (r0 :: recs)
                  [] [] ((1 + cells (r0 :: recs)) / x) H Hk) as E.
    rewrite !app_nil_r in E. simpl app in E.
    etransitivity; [apply E; reflexivity|]. reflexivity.
  - intros Hk.
    apply (@scan_short_overruns (render (r0 :: recs)) x (r0 :: recs) [] []
             ((1 + cells (r0 :: recs)) / x) H Hk Hpos).
    reflexivity.
Qed.

(** The statement above, on a two-column header followed by two
    one-field records: two rows are counted for three records. *)
Lemma short_records_witness :
  calc_x (render [[chars "a"; chars "b"]; [chars "c"]; [chars "d"]]) = 2
  /\ calc_y (render [[chars "a"; chars "b"]; [chars "c"]; [chars "d"]]) 2
     = (1 + cells [[chars "a"; chars "b"]; [chars "c"]; [chars "d"]]) / 2
  /\ (length [[chars "a"; chars "b"]; [chars "c"]; [chars "d"]]
      <= (1 + cells [[chars "a"; chars "b"]; [chars "c"]; [chars "d"]]) / 2 ->
      calc_fields
        (Header.value
         ++ render [[chars "a"; chars "b"]; [chars "c"]; [chars "d"]])
      = Some (map (padded 2)
                [[chars "a"; chars "b"]; [chars "c"]; [chars "d"]]
              ++ repeat (repeat [] 2)
                   ((1 + cells [[chars "a"; chars "b"]; [chars "c"];
                                [chars "d"]]) / 2
                    - length [[chars "a"; chars "b"]; [chars "c"];
                              [chars "d"]])))
  /\ ((1 + cells [[chars "a"; chars "b"]; [chars "c"]; [chars "d"]]) / 2
      < length [[chars "a"; chars "b"]; [chars "c"]; [chars "d"]] ->
      calc_fields
        (Header.value
         ++ render [[chars "a"; chars "b"]; [chars "c"]; [chars "d"]])
      = None).
Proof.
  apply (@short_records_pad_or_overrun 2 [chars "a"; chars "b"]
           [[chars "c"]; [chars "d"]]).
  - repeat constructor; simpl; lia.
  - reflexivity.
Defined.

Lemma rectangular_short (x : nat) (recs : list (list (list ascii))) :
  rectangular x recs ->
  short_records x recs /\ map (padded x) recs = map (map strip_field) recs
  /\ cells recs = length recs * x.
Proof.
  intros [Hx H]. unfold short_records, cells.
  induction H as [|r recs [Hl Hr] _ (IH1 & IH2 & IH3)].
  - repeat split; constructor.
  - split; [constructor; [split; [lia|exact Hr]|exact IH1]|].
    split.
    + simpl. rewrite IH2. f_equal. unfold padded.
      rewrite Hl, Nat.sub_diag. apply app_nil_r.
    + simpl. rewrite length_app, IH3. lia.
Qed.

(** A body whose last record lacks its newline.  The record is counted as
    a row, but its last field is never stored: the cell stays empty. *)
Theorem unterminated_last_record (x : nat)
    (recs : list (list (list ascii))) (fs : list (list ascii))
    (f : list ascii) :
  rectangular x recs -> Forall field_ok (fs ++ [f]) -> length fs + 1 = x ->
  exists v,
    make (Header.value ++ render recs ++ render_open fs f) = Some v
    /\ rows v = length recs + 1
    /\ fields v
       = map (map strip_field) recs ++ [map strip_field fs ++ [[]]].
Proof.
  intros Hrect Hok Hl.
  destruct (rectangular_short Hrect) as (Hshort & Hpad & Hcells).
  apply Forall_app in Hok as [Hfs Hf]. inversion_clear Hf as [|? ? Hf' _].
  set (body := render recs ++ render_open fs f).
  assert (Hx : calc_x body = x).
  { unfold body, calc_x. destruct recs as [|r recs].
    - unfold render, render_open. simpl.
      rewrite calc_x_commas by exact Hfs.
      rewrite <- (app_nil_r f). rewrite calc_x_field by exact Hf'.
      simpl. lia.
    - destruct Hrect as [_ Hrect].
      inversion_clear Hrect as [|? ? [Hlr Hr] _].
      unfold render. simpl concat. rewrite <- app_assoc.
      rewrite calc_x_record; [lia|exact Hr|].
      intros ->. simpl in Hlr. lia. }
  assert (Hy : calc_y body x = length recs + 1).
  { unfold body, calc_y, render_open.
    rewrite calc_y_short by exact Hshort.
    rewrite calc_y_commas by (try exact Hfs; lia).
    rewrite <- (app_nil_r f). rewrite calc_y_field by exact Hf'.
    simpl calc_y_loop. rewrite Hcells.
    replace (S (length recs * x + length fs)) with ((length recs + 1) * x)
      by lia.
    apply Nat.div_mul. lia. }
  assert (E : calc_fields (Header.value ++ body)
              = Some (map (map strip_field) recs
                      ++ [map strip_field fs ++ [[]]])).
  { rewrite calc_fields_unfold, Hx, Hy.
    pose proof (@scan_short_records body x (render_open fs f) recs [] []
                  (length recs + 1) Hshort) as E1.
    simpl app in E1. etransitivity; [apply E1; [lia|reflexivity]|]. clear E1.
    replace (length recs + 1 - length recs) with 1 by lia.
    rewrite Hpad. simpl repeat.
    pose proof (@scan_commas body x (map (map strip_field) recs) [] fs
                  (render recs) [] f 1 Hfs) as E2.
    cbn [length app Nat.add] in E2. unfold view_type in E2.
    rewrite Hl in E2. unfold render_open.
    etransitivity; [apply E2; [reflexivity|lia]|]. clear E2.
    rewrite <- (app_nil_r f) at 1.
    rewrite scan_field by exact Hf'. reflexivity. }
  unfold make. fold body. rewrite E. simpl.
  eexists. split; [reflexivity|]. unfold rows. cbn [fields].
  split; [|reflexivity].
  rewrite length_app, length_map. reflexivity.
Qed.

(** The statement above, on [a,b] and [c,d] without the last
    newline. *)
Lemma unterminated_last_record_witness :
  exists v,
    make (Header.value ++ render [[chars "a"; chars "b"]]
          ++ render_open [chars "c"] (chars "d")) = Some v
    /\ rows v = length [[chars "a"; chars "b"]] + 1
    /\ fields v
       = map (map strip_field) [[chars "a"; chars "b"]]
         ++ [map strip_field [chars "c"] ++ [[]]].
Proof.
  apply (@unterminated_last_record 2 [[chars "a"; chars "b"]]
           [chars "c"] (chars "d")).
  - split; [lia|repeat constructor].
  - repeat constructor.
  - reflexivity.
Defined.

(** ** Surplus fields *)

Lemma render_record_app (r es : list (list ascii)) :
  es <> [] -> render_record (r ++ es) = commas r ++ render_record es.
Proof.
  intros Hne. induction r as [|f r IH]; [reflexivity|].
  rewrite commas_cons. simpl app. cbn [render_record]. rewrite IH.
  destruct (r ++ es) eqn:E.
  - apply app_eq_nil in E as [_ E]. congruence.
  - now rewrite <- app_assoc.
Qed.

Lemma calc_y_surplus (x : nat) (es : list (list ascii)) (rest : list ascii) :
  Forall field_ok es -> es <> [] ->
  forall out, calc_y_loop (render_record es ++ rest) x false out x
              = calc_y_loop rest x false (S out) 0.
Proof.
  induction 1 as [|f es Hf _ IH]; intros Hne out; [congruence|].
  cbn [render_record]. rewrite <- app_assoc.
  rewrite calc_y_field by exact Hf. rewrite <- app_comm_cons.
  destruct es as [|g es].
  - simpl. reflexivity.
  - cbn [calc_y_loop]. rewrite comma_not_quote. simpl xorb. cbv iota.
    rewrite Nat.ltb_irrefl.
    replace (Ascii.eqb chr_comma chr_comma) with true by reflexivity.
    replace (Ascii.eqb chr_comma chr_nl) with false by reflexivity.
    simpl andb. cbv iota beta. apply IH. discriminate.
Qed.

(** The scan loop over the fields of a record that come after the last
    column: nothing is stored and the start of the pending slice stays
    where it was. *)
Lemma scan_surplus (dv : list ascii) (x : nat) (ff iy : nat) (g : grid)
    (es : list (list ascii)) (rest : list ascii) :
  Forall field_ok es -> es <> [] ->
  forall first,
    scan dv x (render_record es ++ rest) first
      {| in_quotes := false; field_first := ff;
         index_x := x; index_y := iy; out := g |}
    = scan dv x rest (first + length (render_record es))
        {| in_quotes := false; field_first := ff;
           index_x := 0; index_y := S iy; out := g |}.
Proof.
  induction 1 as [|f es Hf _ IH]; intros Hne first; [congruence|].
  cbn [render_record]. rewrite <- app_assoc.
  rewrite scan_field by exact Hf.
  unfold with_quotes. cbn [in_quotes field_first index_x index_y out].
  rewrite <- app_comm_cons.
  destruct es as [|e es].
  - simpl. rewrite Nat.ltb_irrefl. simpl. f_equal.
    rewrite length_app. simpl. lia.
  - cbn [scan]. cbn [in_quotes field_first index_x index_y out].
    rewrite comma_not_quote. simpl xorb. cbv iota.
    rewrite Nat.ltb_irrefl.
    replace (Ascii.eqb chr_comma chr_comma) with true by reflexivity.
    replace (Ascii.eqb chr_comma chr_nl) with false by reflexivity.
    simpl orb. simpl andb. cbv iota beta.
    rewrite IH by discriminate. f_equal.
    rewrite !length_app. simpl. lia.
Qed.

(** The scan loop over a full record when the pending slice started
    earlier, at the text [leak]: the first cell takes [leak] and the first
    field together. *)
Lemma scan_record_leak (dv : list ascii) (x : nat) (done later : grid)
    (a0 leak f : list ascii) (r : list (list ascii)) (b : list ascii) :
  Forall field_ok (f :: r) -> length (f :: r) = x ->
  dv = a0 ++ leak ++ render_record (f :: r) ++ b ->
  scan dv x (render_record (f :: r) ++ b) (length (a0 ++ leak))
    {| in_quotes := false; field_first := length a0;
       index_x := 0; index_y := length done;
       out := done ++ repeat [] x :: later |}
  = scan dv x b (length (a0 ++ leak ++ render_record (f :: r)))
      {| in_quotes := false;
         field_first := length (a0 ++ leak ++ render_record (f :: r));
         index_x := 0; index_y := S (length done);
         out := done ++ (strip_field (leak ++ f) :: map strip_field r)
                  :: later |}.
Proof.
  intros Hok Hl Hdv. subst x. inversion_clear Hok as [|? ? Hf Hr].
  cbn [render_record] in *. rewrite <- app_assoc in *.
  rewrite scan_field by exact Hf.
  unfold with_quotes. cbn [in_quotes field_first index_x index_y out].
  rewrite <- app_comm_cons in *.
  cbn [length repeat].
  assert (Hslice : slice dv (length a0) (length (a0 ++ leak) + length f)
                   = leak ++ f).
  { rewrite Hdv.
    replace (a0 ++ leak ++ f ++
             (match r with [] => chr_nl | _ :: _ => chr_comma end)
             :: render_record r ++ b)
      with (a0 ++ (leak ++ f) ++
            (match r with [] => chr_nl | _ :: _ => chr_comma end)
            :: render_record r ++ b)
      by (now rewrite <- !app_assoc).
    replace (length (a0 ++ leak) + length f)
      with (length a0 + length (leak ++ f))
      by (rewrite !length_app; lia).
    apply slice_app. }
  erewrite scan_delim; cycle 1.
  - reflexivity.
  - destruct r; [now right|now left].
  - simpl in *. lia.
  - cbn [out index_x index_y field_first]. rewrite Hslice.
    apply (store_app done [] [] (repeat [] (length r)) later).
  - cbn [in_quotes field_first index_x index_y out app].
    destruct r as [|g r].
    + simpl. f_equal.
      * rewrite !length_app. simpl. lia.
      * f_equal. rewrite !length_app. simpl. lia.
    + replace (Ascii.eqb chr_comma chr_nl) with false by reflexivity.
      cbv iota.
      pose proof (@scan_record dv (length (f :: g :: r)) done later (g :: r)
                    (a0 ++ leak ++ f ++ [chr_comma])
                    [strip_field (leak ++ f)] b Hr) as E.
      cbn [length app] in E.
      replace (S (length (a0 ++ leak) + length f))
        with (length (a0 ++ leak ++ f ++ [chr_comma]))
        by (rewrite !length_app; simpl; lia).
      etransitivity; [apply E|].
      * discriminate.
      * rewrite Hdv. now rewrite <- !app_assoc.
      * simpl in *. lia.
      * f_equal.
        -- now rewrite <- !app_assoc.
        -- f_equal. now rewrite <- !app_assoc.
Qed.

Lemma scan_record_leak_end (dv : list ascii) (x : nat) (done later : grid)
    (a0 leak f : list ascii) (r : list (list ascii)) (first iy : nat)
    (g0 : grid) :
  Forall field_ok (f :: r) -> length (f :: r) = x ->
  dv = a0 ++ leak ++ render_record (f :: r) ->
  first = length (a0 ++ leak) -> iy = length done ->
  g0 = done ++ repeat [] x :: later ->
  scan dv x (render_record (f :: r)) first
    {| in_quotes := false; field_first := length a0;
       index_x := 0; index_y := iy; out := g0 |}
  = Some (done ++ (strip_field (leak ++ f) :: map strip_field r) :: later).
Proof.
  intros Hok Hl Hdv -> -> ->.
  pose proof (@scan_record_leak dv x done later a0 leak f r [] Hok Hl) as E.
  rewrite !app_nil_r in E. now rewrite E.
Qed.

Lemma surplus_grid (x : nat) (p0 : list (list ascii))
    (pre : list (list (list ascii))) (r : list (list ascii))
    (e : list ascii) (es : list (list ascii)) (g : list ascii)
    (gs : list (list ascii)) :
  rectangular x (p0 :: pre) ->
  Forall field_ok r -> length r = x ->
  Forall field_ok (e :: es) ->
  Forall field_ok (g :: gs) -> length (g :: gs) = x ->
  calc_fields
    (Header.value
     ++ render (p0 :: pre) ++ render_record (r ++ e :: es)
     ++ render_record (g :: gs))
  = Some (map (map strip_field) (p0 :: pre)
          ++ [map strip_field r;
              strip_field (render_record (e :: es) ++ g)
                :: map strip_field gs]
          ++ repeat (repeat [] x) (2 / x)).
Proof.
  intros Hrect Hr Hl He Hg Hlg.
  destruct (rectangular_short Hrect) as (Hshort & Hpad & Hcells).
  assert (Hpos : 0 < x) by (destruct Hrect; assumption).
  rewrite render_record_app by discriminate. rewrite <- app_assoc.
  set (P := p0 :: pre) in *.
  set (RE := render_record (e :: es)).
  set (RG := render_record (g :: gs)).
  set (body := render P ++ commas r ++ RE ++ RG).
  assert (Hx : calc_x body = x).
  { unfold body, calc_x, P, render. simpl concat. rewrite <- app_assoc.
    destruct Hrect as [_ Hrect].
    inversion_clear Hrect as [|? ? [Hlp Hp] _].
    rewrite calc_x_record; [lia|exact Hp|].
    intros ->. simpl in Hlp. lia. }
  assert (Hy : calc_y body x = length P + 2 + 2 / x).
  { unfold body, calc_y.
    rewrite calc_y_short by exact Hshort.
    rewrite calc_y_commas by (try exact Hr; lia).
    rewrite Hl. cbn [Nat.add]. unfold RE.
    rewrite calc_y_surplus by (try exact He; discriminate).
    unfold RG. rewrite <- (app_nil_r (render_record (g :: gs))).
    rewrite calc_y_record by (try exact Hg; try discriminate; lia).
    cbn [calc_y_loop]. rewrite Hcells, Hlg.
    replace (S (S (length P * x + x)) + x) with ((length P + 2) * x + 2)
      by lia.
    rewrite Nat.div_add_l by lia. reflexivity. }
  rewrite calc_fields_unfold. fold body. rewrite Hx, Hy.
  pose proof (@scan_short_records body x (commas r ++ RE ++ RG) P [] []
                (length P + 2 + 2 / x) Hshort) as E1.
  cbn [app length] in E1.
  replace (length P + 2 + 2 / x - length P) with (S (S (2 / x))) in E1
    by lia.
  rewrite Hpad in E1. cbn [repeat] in E1.
  etransitivity; [apply E1; [lia|reflexivity]|]. clear E1.
  pose proof (@scan_commas body x (map (map strip_field) P)
                (repeat [] x :: repeat (repeat [] x) (2 / x))
                r (render P) [] (RE ++ RG) 0 Hr) as E2.
  cbn [app length] in E2. unfold view_type in E2.
  replace (length (map strip_field r)) with x in E2
    by (rewrite length_map; symmetry; exact Hl).
  replace (length r + 0) with x in E2 by lia.
  rewrite Hl in E2. cbn [repeat] in E2. rewrite app_nil_r in E2.
  etransitivity; [apply E2; [reflexivity|lia]|]. clear E2.
  match goal with
  | |- context [Build_scan_state false _ ?t _ _] =>
      replace t with x by (rewrite length_map; symmetry; exact Hl)
  end.
  pose proof (@scan_surplus body x (length (render P ++ commas r))
                (length (map (map strip_field) P))
                (map (map strip_field) P
                 ++ map strip_field r
                 :: repeat [] x :: repeat (repeat [] x) (2 / x))
                (e :: es) RG He) as E3.
  etransitivity; [apply E3; discriminate|]. clear E3.
  etransitivity.
  { apply (@scan_record_leak_end body x
             (map (map strip_field) P ++ [map strip_field r])
             (repeat (repeat [] x) (2 / x))
             (render P ++ commas r) RE g gs); try assumption.
    - unfold body. now rewrite <- !app_assoc.
    - unfold RE. rewrite !length_app. lia.
    - rewrite length_app. simpl. lia.
    - now rewrite <- app_assoc. }
  f_equal. now rewrite <- app_assoc.
Qed.

(** A record with more fields than the first one.  Its surplus fields are
    not stored in its own row, but they are not dropped either: the
    pending slice still starts at the first of them, so the first cell of
    the next row holds the surplus fields, their commas, the newline and
    the first field of the next record as one text. *)
Theorem surplus_fields_leak (x : nat) (p0 : list (list ascii))
    (pre : list (list (list ascii))) (r : list (list ascii))
    (e : list ascii) (es : list (list ascii)) (g : list ascii)
    (gs : list (list ascii)) :
  rectangular x (p0 :: pre) ->
  Forall field_ok r -> length r = x ->
  Forall field_ok (e :: es) ->
  Forall field_ok (g :: gs) -> length (g :: gs) = x ->
  exists v,
    make (Header.value
          ++ render (p0 :: pre) ++ render_record (r ++ e :: es)
          ++ render_record (g :: gs)) = Some v
    /\ rows v = length (p0 :: pre) + 2 + 2 / x
    /\ fields v
       = map (map strip_field) (p0 :: pre)
         ++ [map strip_field r;
             strip_field (render_record (e :: es) ++ g)
               :: map strip_field gs]
         ++ repeat (repeat [] x) (2 / x).
Proof.
  intros Hrect Hr Hl He Hg Hlg. unfold make.
  rewrite (surplus_grid Hrect Hr Hl He Hg Hlg). simpl option_map.
  eexists. split; [reflexivity|]. split; [|reflexivity].
  unfold rows. cbn [fields].
  cbn [length]. rewrite length_app. cbn [length].
  rewrite length_map, repeat_length. unfold view_type. lia.
Qed.

(** The statement above, on [a,b], [c,d,e], [f,g]: the third row starts
    with the text [e], newline, [f]. *)
Lemma surplus_fields_witness :
  exists v,
    make (Header.value
          ++ render [[chars "a"; chars "b"]]
          ++ render_record ([chars "c"; chars "d"] ++ [chars "e"])
          ++ render_record [chars "f"; chars "g"]) = Some v
    /\ rows v = length [[chars "a"; chars "b"]] + 2 + 2 / 2
    /\ fields v
       = map (map strip_field) [[chars "a"; chars "b"]]
         ++ [map strip_field [chars "c"; chars "d"];
             strip_field (render_record [chars "e"] ++ chars "f")
               :: map strip_field [chars "g"]]
         ++ repeat (repeat [] 2) (2 / 2).
Proof.
  apply (@surplus_fields_leak 2 [chars "a"; chars "b"] []
           [chars "c"; chars "d"] (chars "e") [] (chars "f") [chars "g"]).
  - split; [lia|repeat constructor].
  - repeat constructor.
  - reflexivity.
  - repeat constructor.
  - repeat constructor.
  - reflexivity.
Defined.

(** ** Spans, padding, the first record *)

Lemma strip_field_subrange (v : list ascii) :
  exists pre post,
    v = pre ++ strip_field v ++ post /\ length pre <= 2 /\ length post <= 1.
Proof.
  rewrite strip_field_unfold.
  assert (Hd : exists p1, v = p1 ++ drop_separator v /\ length p1 <= 1).
  { destruct v as [|c v]; [exists []; split; [reflexivity|simpl; lia]|].
    simpl. destruct (Ascii.eqb c chr_comma).
    - exists [c]. split; [reflexivity|simpl; lia].
    - exists []. split; [reflexivity|simpl; lia]. }
  destruct Hd as (p1 & Hv & Hp1).
  destruct ((1 <? length (drop_separator v))
            && Ascii.eqb (hd chr_nul (drop_separator v)) chr_quote
            && Ascii.eqb (last (drop_separator v) chr_nul) chr_quote) eqn:E.
  - apply andb_prop in E as [E _]. apply andb_prop in E as [E _].
    apply Nat.ltb_lt in E.
    destruct (drop_separator v) as [|q t] eqn:Hdrop; [simpl in E; lia|].
    destruct t as [|a t]; [simpl in E; lia|].
    assert (Hne : a :: t <> []) by discriminate.
    destruct (exists_last Hne) as (inner & b & Hb).
    exists (p1 ++ [q]), [b]. cbn [tl]. rewrite Hb, removelast_last.
    split; [|rewrite length_app; simpl; lia].
    rewrite Hv at 1. rewrite Hb. now rewrite <- app_assoc.
  - exists p1, []. rewrite app_nil_r. split; [exact Hv|simpl; lia].
Qed.

Lemma slice_subrange (dv : list ascii) (a b : nat) :
  exists pre post, dv = pre ++ slice dv a b ++ post.
Proof.
  unfold slice. exists (firstn a dv), (skipn (b - a) (skipn a dv)).
  now rewrite firstn_skipn, firstn_skipn.
Qed.

(** Every field of a view is a contiguous part of the body text: the
    tokenizer never copies, reorders or rewrites characters, and a stored
    field differs from its slice by at most two characters dropped in
    front and one behind. *)
Theorem fields_are_spans (data : list ascii) (v : runtime_cppsv_view) :
  make data = Some v ->
  Forall (Forall (fun field =>
            exists pre post,
              skipn Header.size data = pre ++ field ++ post))
    (fields v)
  /\ (forall view, exists pre post,
        view = pre ++ strip_field view ++ post
        /\ length pre <= 2 /\ length post <= 1).
Proof.
  intros Hv. split; [|exact strip_field_subrange].
  revert Hv. unfold make.
  destruct (calc_fields data) as [g|] eqn:Hg; [|discriminate].
  intros [= <-]. cbn [fields].
  apply calc_fields_stored in Hg.
  eapply Forall_impl; [|exact Hg]. intros row Hrow.
  eapply Forall_impl; [|exact Hrow]. intros field [->|Hf].
  - exists [], (skipn Header.size data). reflexivity.
  - destruct Hf as (ff & first & d & _ & _ & ->).
    destruct (slice_subrange (skipn Header.size data) ff first)
      as (p1 & q1 & H1).
    destruct (strip_field_subrange (slice (skipn Header.size data) ff first))
      as (p2 & q2 & H2 & _).
    exists (p1 ++ p2), (q2 ++ q1).
    rewrite H1 at 1. rewrite H2 at 1. now rewrite <- !app_assoc.
Qed.

(** The statement above, on the scenario table. *)
Lemma fields_are_spans_witness :
  Forall (Forall (fun field =>
            exists pre post,
              skipn Header.size people = pre ++ field ++ post))
    (fields people_view)
  /\ (forall view, exists pre post,
        view = pre ++ strip_field view ++ post
        /\ length pre <= 2 /\ length post <= 1).
Proof.
  apply (@fields_are_spans people people_view). vm_compute. reflexivity.
Defined.

(** [to_floating_point] reads the same number with any run of spaces in
    front and any run of spaces and NULs behind. *)
Theorem float_ignores_padding (n : nat) (t post : list ascii) :
  t <> [] -> hd chr_nul t <> chr_space -> back_is_blank t = false ->
  Forall blank post ->
  to_floating_point (repeat chr_space n ++ t ++ post) = to_floating_point t.
Proof.
  intros Hne Hhd Hb Hpost. unfold to_floating_point.
  rewrite trim_leading. destruct t as [|c t]; [congruence|].
  simpl app. rewrite trim_trailing; [reflexivity|exact Hhd|exact Hpost].
Qed.

(** The statement above, on [1.5] between two spaces and a space and a
    NUL. *)
Lemma float_ignores_padding_witness :
  to_floating_point
    (repeat chr_space 2 ++ chars "1.5" ++ [chr_space; chr_nul])
  = to_floating_point (chars "1.5").
Proof.
  apply (@float_ignores_padding 2 (chars "1.5") [chr_space; chr_nul]).
  - discriminate.
  - discriminate.
  - reflexivity.
  - constructor; [now left|]. constructor; [now right|constructor].
Defined.

(** The column count is fixed by the first record alone: whatever text
    follows its newline, [calc_x] is the number of its fields, which is
    the number of its commas outside quotes plus one. *)
Theorem columns_from_first_record (r : list (list ascii))
    (rest : list ascii) :
  Forall field_ok r -> r <> [] ->
  calc_x (render_record r ++ rest) = length r
  /\ calc_x (render_record r ++ rest)
     = outside_commas false (render_record r) + 1.
Proof.
  intros Hr Hne. unfold calc_x.
  rewrite calc_x_record by assumption.
  rewrite (outside_commas_record Hr).
  destruct r; [congruence|]. simpl. lia.
Qed.

(** The statement above, on a quoted first field with a comma inside,
    followed by a ragged line. *)
Lemma columns_from_first_record_witness :
  calc_x (render_record
            [chr_quote :: chars "x,y" ++ [chr_quote]; chars "z"]
          ++ line "1,2,3,4")
  = length [chr_quote :: chars "x,y" ++ [chr_quote]; chars "z"]
  /\ calc_x (render_record
               [chr_quote :: chars "x,y" ++ [chr_quote]; chars "z"]
             ++ line "1,2,3,4")
     = outside_commas false
         (render_record
            [chr_quote :: chars "x,y" ++ [chr_quote]; chars "z"]) + 1.
Proof.
  apply (@columns_from_first_record
           [chr_quote :: chars "x,y" ++ [chr_quote]; chars "z"]
           (line "1,2,3,4")).
  - repeat constructor.
  - discriminate.
Defined.
